(** * apps.huny.dev: the catalog pipeline of the App component

    A shallow embedding of the pure part of the single-page catalog
    (URL utilities, placeholder initials and colour, the loader's decision,
    filter / sort / group) together with the properties of its
    specification.

    ECMAScript strings are sequences of UTF-16 code units; they are modelled
    as [list Z].  Built-ins whose result depends on Unicode tables, on the
    ICU collation or on the WHATWG URL parser are operations of the
    [Runtime] class; built-ins with a short exact definition ([trim],
    [split], [endsWith], [includes], [join], [>>>], [%]) are written out. *)

From Stdlib Require Import ZArith List Bool Lia.
From Stdlib Require String Ascii DecimalString DecimalZ DecimalPos.
Import String.StringSyntax.
From Stdlib Require Import Permutation Sorted.
Import ListNotations.

Local Open Scope Z_scope.
#[local] Set Warnings "-register-all".

(** ** Strings as UTF-16 code units *)

Definition jsstring := list Z.

(** Source literals are UTF-8 in the file; [utf16] decodes the bytes of a
    literal into the code units the engine holds (a code point above
    U+FFFF becomes a surrogate pair). *)
Fixpoint utf16 (bs : list Z) : jsstring :=
  match bs with
  | [] => []
  | b0 :: r0 =>
    if b0 <? 0x80 then b0 :: utf16 r0
    else if b0 <? 0xE0 then
      match r0 with
      | b1 :: r1 =>
        Z.lor (Z.shiftl (Z.land b0 0x1F) 6) (Z.land b1 0x3F) :: utf16 r1
      | [] => [0xFFFD]
      end
    else if b0 <? 0xF0 then
      match r0 with
      | b1 :: b2 :: r2 =>
        Z.lor (Z.shiftl (Z.land b0 0x0F) 12)
              (Z.lor (Z.shiftl (Z.land b1 0x3F) 6) (Z.land b2 0x3F))
          :: utf16 r2
      | _ => [0xFFFD]
      end
    else
      match r0 with
      | b1 :: b2 :: b3 :: r3 =>
        let cp := Z.lor (Z.shiftl (Z.land b0 0x07) 18)
                   (Z.lor (Z.shiftl (Z.land b1 0x3F) 12)
                     (Z.lor (Z.shiftl (Z.land b2 0x3F) 6) (Z.land b3 0x3F))) in
        let v := cp - 0x10000 in
        (0xD800 + Z.shiftr v 10) :: (0xDC00 + Z.land v 0x3FF) :: utf16 r3
      | _ => [0xFFFD]
      end
  end.

Definition JS (s : String.string) : jsstring :=
  utf16 (map (fun a => Z.of_N (Ascii.N_of_ascii a))
             (String.list_ascii_of_string s)).

Delimit Scope string_scope with string.
Arguments JS s%_string.

Definition str_eqb (a b : jsstring) : bool :=
  if list_eq_dec Z.eq_dec a b then true else false.

(** A string is truthy exactly when it is not empty. *)
Definition truthy (s : jsstring) : bool :=
  match s with [] => false | _ :: _ => true end.

(** ** Exact built-ins *)

(** WhiteSpace and LineTerminator code units: what [trim] strips and what
    the class escape [\s] matches. *)
Definition isWhiteSpace (c : Z) : bool :=
  ((9 <=? c) && (c <=? 13)) || (c =? 32) || (c =? 160) || (c =? 0x1680)
  || ((0x2000 <=? c) && (c <=? 0x200A))
  || (c =? 0x2028) || (c =? 0x2029) || (c =? 0x202F) || (c =? 0x205F)
  || (c =? 0x3000) || (c =? 0xFEFF).

Fixpoint trimStart (s : jsstring) : jsstring :=
  match s with
  | [] => []
  | c :: r => if isWhiteSpace c then trimStart r else s
  end.

Definition trimEnd (s : jsstring) : jsstring := rev (trimStart (rev s)).

Definition trim (s : jsstring) : jsstring := trimEnd (trimStart s).

Fixpoint startsWith (s p : jsstring) : bool :=
  match p, s with
  | [], _ => true
  | _ :: _, [] => false
  | x :: p', y :: s' => (x =? y) && startsWith s' p'
  end.

Definition endsWith (s p : jsstring) : bool := startsWith (rev s) (rev p).

Fixpoint includes (hay q : jsstring) : bool :=
  startsWith hay q ||
  match hay with
  | [] => false
  | _ :: r => includes r q
  end.

(** [parts.join(sep)] *)
Fixpoint join (sep : jsstring) (parts : list jsstring) : jsstring :=
  match parts with
  | [] => []
  | [p] => p
  | p :: ps => p ++ sep ++ join sep ps
  end.

(** [s.split(sep)] for a separator that is one code unit, generalised to a
    class of code units: every separator unit ends the current piece, so
    adjacent separators give empty pieces and the empty string gives one
    empty piece. *)
Fixpoint split_go (sep : Z -> bool) (cur s : jsstring) : list jsstring :=
  match s with
  | [] => [cur]
  | c :: r => if sep c then cur :: split_go sep [] r
              else split_go sep (cur ++ [c]) r
  end.

Definition split_on (sep : Z -> bool) (s : jsstring) : list jsstring :=
  split_go sep [] s.

Definition DOT : Z := 46.
Definition HYPHEN : Z := 45.

(** [s.split(".")] *)
Definition split_dot (s : jsstring) : list jsstring := split_on (Z.eqb DOT) s.

(** [s.split(/\s+|\.|-/)]: at each position the alternatives are tried in
    order; [\s+] is greedy, so a run of white space is one separator
    ([ws] records that the previous unit belonged to such a run), while
    every "." and every "-" is a separator of its own. *)
Fixpoint split_re_go (ws : bool) (cur s : jsstring) : list jsstring :=
  match s with
  | [] => [cur]
  | c :: r =>
    if isWhiteSpace c then
      if ws then split_re_go true [] r else cur :: split_re_go true [] r
    else if (c =? DOT) || (c =? HYPHEN) then cur :: split_re_go false [] r
    else split_re_go false (cur ++ [c]) r
  end.

Definition split_re (s : jsstring) : list jsstring := split_re_go false [] s.

(** [x >>> n]: ToUint32 of the left operand, shifted by the low five bits
    of the right one. *)
Definition ushr (x n : Z) : Z := Z.shiftr (x mod 2 ^ 32) (n mod 32).

(** ** Built-ins supplied by the engine *)

Class Runtime := {
  (** [new URL(u).hostname]; [None] when the constructor throws *)
  URL_hostname : jsstring -> option jsstring;
  toLowerCase : jsstring -> jsstring;
  toUpperCase : jsstring -> jsstring;
  (** [a.localeCompare(b)] *)
  localeCompare : jsstring -> jsstring -> Z;
  (** [a.localeCompare(b, undefined, { numeric: true })] *)
  localeCompareNumeric : jsstring -> jsstring -> Z
}.

(** [arr.sort(cmp)] is stable; for a consistent comparator every stable
    sort returns the same array, the one insertion from the right builds. *)
Section Sort.
Context {A : Type} (cmp : A -> A -> Z).

Fixpoint sort_insert (x : A) (l : list A) : list A :=
  match l with
  | [] => [x]
  | y :: r => if cmp x y <=? 0 then x :: l else y :: sort_insert x r
  end.

Fixpoint Array_sort (l : list A) : list A :=
  match l with
  | [] => []
  | x :: r => sort_insert x (Array_sort r)
  end.
End Sort.

(** ** The data model *)

Record AppItem := mkAppItem {
  title : jsstring;
  url : jsstring;
  description : option jsstring;
  category : option jsstring;
  thumbnail : option jsstring
}.

Inductive SortMode := SortName | SortCategory.

Definition UNCATEGORIZED : jsstring := JS "그룹없음".

(** The category filter that lets every record through. *)
Definition ALL : jsstring := JS "전체".

(** [a ?? b] on an optional string *)
Definition nullish (a : option jsstring) (b : jsstring) : jsstring :=
  match a with Some x => x | None => b end.

Definition FALLBACK_APPS : list AppItem :=
  [ mkAppItem (JS "Studio") (JS "https://studio.huny.dev")
      (Some (JS "내 웹앱 포털(미리보기)")) (Some (JS "포털")) None;
    mkAppItem (JS "Sites") (JS "https://sites.huny.dev")
      (Some (JS "도메인 링크 & 설명 집합")) (Some (JS "도구")) None;
    mkAppItem (JS "TTS Lab") (JS "https://tts.huny.dev")
      (Some (JS "텍스트-음성 합성 관련 실험실")) (Some (JS "AI / 오디오")) None;
    mkAppItem (JS "VC Demo") (JS "https://vc.huny.dev")
      (Some (JS "Voice Conversion 데모")) (Some (JS "AI / 오디오")) None;
    mkAppItem (JS "Docs") (JS "https://docs.huny.dev")
      (Some (JS "문서/메모 더미")) (Some (JS "문서")) None;
    mkAppItem (JS "Playground") (JS "https://lab.huny.dev")
      (Some (JS "각종 실험")) None None ].

(** ** URL and placeholder utilities *)

Section Utilities.
Context {RT : Runtime}.

Definition getHostname (u : jsstring) : jsstring :=
  match URL_hostname u with
  | Some host => host
  | None => u
  end.

Definition getSubdomainForSort (u : jsstring) : jsstring :=
  let host := getHostname u in
  if endsWith host (JS "huny.dev") then
    let parts := split_dot host in
    if (3 <=? length parts)%nat then nth 0 parts [] else host
  else host.

(** [parts[i]?.[0] ?? ""] *)
Definition firstUnit (parts : list jsstring) (i : nat) : jsstring :=
  match nth_error parts i with
  | Some (c :: _) => [c]
  | _ => []
  end.

Definition initialsFrom (text : jsstring) : jsstring :=
  let t := trim text in
  if negb (truthy t) then JS "?"
  else
    let parts := filter truthy (split_re t) in
    let first := firstUnit parts 0 in
    let second := firstUnit parts 1 in
    toUpperCase (first ++ second).
End Utilities.

Record Hsl := mkHsl { hsl_h : Z; hsl_s : Z; hsl_l : Z }.

(** The loop reads [s.charCodeAt(i)] for [i] from 0 to [s.length - 1],
    which is a left fold over the code units. *)
Definition hashToHsl (s : jsstring) : Hsl :=
  let h := fold_left (fun h c => ushr (h * 31 + c) 0) s 0 in
  mkHsl (Z.rem h 360) 65 50.

(** ** The catalog pipeline *)

Definition NEWLINE : jsstring := [10].

(** [Set<string>]: iteration follows insertion order and [add] of a member
    changes nothing. *)
Definition Set_add (s : list jsstring) (k : jsstring) : list jsstring :=
  if existsb (str_eqb k) s then s else s ++ [k].

(** [Map<string, AppItem[]>]: entries in insertion order, keys distinct. *)
Definition JsMap := list (jsstring * list AppItem).

Definition Map_has (m : JsMap) (k : jsstring) : bool :=
  existsb (fun e => str_eqb (fst e) k) m.

Definition Map_get (m : JsMap) (k : jsstring) : option (list AppItem) :=
  option_map snd (find (fun e => str_eqb (fst e) k) m).

Definition Map_set (m : JsMap) (k : jsstring) (v : list AppItem) : JsMap :=
  if Map_has m k
  then map (fun e => if str_eqb (fst e) k then (fst e, v) else e) m
  else m ++ [(k, v)].

(** [map.get(k)!.push(a)]: the array is held by reference, so the push is
    seen through the map and the entry keeps its place. *)
Definition Map_push (m : JsMap) (k : jsstring) (a : AppItem) : JsMap :=
  map (fun e => if str_eqb (fst e) k then (fst e, snd e ++ [a]) else e) m.

Definition Map_keys (m : JsMap) : list jsstring := map fst m.

Record Group := mkGroup { key : jsstring; items : list AppItem }.

Section Pipeline.
Context {RT : Runtime}.

(** [a.category ?? UNCATEGORIZED] *)
Definition categoryKey (a : AppItem) : jsstring :=
  nullish (category a) UNCATEGORIZED.

(** The callback of [list.filter], with [q] computed before the loop. *)
Definition passes (q category_ : jsstring) (a : AppItem) : bool :=
  let host := getHostname (url a) in
  let sub := getSubdomainForSort (url a) in
  let hay :=
    toLowerCase
      (join NEWLINE [title a; nullish (description a) []; url a; host; sub]) in
  let cat := toLowerCase (categoryKey a) in
  let passQuery := if truthy q then includes hay q else true in
  let passCat :=
    if str_eqb category_ ALL then true
    else str_eqb cat (toLowerCase category_) in
  passQuery && passCat.

Definition filtered (apps : option (list AppItem)) (query category_ : jsstring)
  : list AppItem :=
  let list := match apps with Some l => l | None => [] end in
  let q := toLowerCase (trim query) in
  filter (passes q category_) list.

Definition compareName (a b : AppItem) : Z :=
  let sa := toLowerCase (getSubdomainForSort (url a)) in
  let sb := toLowerCase (getSubdomainForSort (url b)) in
  localeCompareNumeric sa sb.

Definition compareCategory (a b : AppItem) : Z :=
  let ca := toLowerCase (categoryKey a) in
  let cb := toLowerCase (categoryKey b) in
  if negb (str_eqb ca cb) then localeCompareNumeric ca cb
  else
    let sa := toLowerCase (getSubdomainForSort (url a)) in
    let sb := toLowerCase (getSubdomainForSort (url b)) in
    localeCompareNumeric sa sb.

Definition normalized (apps : option (list AppItem)) (query : jsstring)
           (sort : SortMode) (category_ : jsstring) : list AppItem :=
  let fl := filtered apps query category_ in
  let nameSorted := Array_sort compareName fl in
  match sort with
  | SortName => nameSorted
  | SortCategory => Array_sort compareCategory fl
  end.

Definition categories (apps : option (list AppItem)) : list jsstring :=
  let list := match apps with Some l => l | None => [] end in
  let set := fold_left (fun set a => Set_add set (categoryKey a)) list [] in
  ALL :: Array_sort localeCompare set.

Definition group_step (m : JsMap) (a : AppItem) : JsMap :=
  let k := categoryKey a in
  let m' := if negb (Map_has m k) then Map_set m k [] else m in
  Map_push m' k a.

Definition grouped (normalized_ : list AppItem) : list Group :=
  let m := fold_left group_step normalized_ [] in
  let keys := Array_sort localeCompare (Map_keys m) in
  map (fun k => mkGroup k (match Map_get m k with Some v => v | None => [] end))
      keys.
End Pipeline.

(** Partitions in order, items within each partition in order. *)
Definition flatten (g : list Group) : list AppItem := flat_map items g.

(** ** The loader *)

(** What [res.json()] can resolve with. *)
Inductive JSON :=
| JNull
| JBool (b : bool)
| JNumber (n : Z)
| JString (s : jsstring)
| JArray (elems : list JSON)
| JObject (fields : list (jsstring * JSON)).

(** How the request ends: the [fetch] promise rejects, or it resolves with
    a response whose [ok] flag is given and whose [json()] promise resolves
    with a value or rejects ([None]). *)
Inductive FetchOutcome :=
| FetchRejected
| FetchResolved (ok : bool) (json : option JSON).

(** [data?.apps]; a later duplicate of a key overrides an earlier one. *)
Definition get_apps (data : JSON) : option JSON :=
  match data with
  | JObject fields =>
    option_map snd (find (fun e => str_eqb (fst e) (JS "apps")) (rev fields))
  | _ => None
  end.

(** The annotation [AppItem[]] is erased at run time: the state holds the
    parsed elements as they came.  An [AppItem] literal is the object with
    its present fields. *)
Definition AppItem_JSON (a : AppItem) : JSON :=
  let opt name v :=
    match v with Some x => [(JS name, JString x)] | None => [] end in
  JObject ([(JS "title", JString (title a)); (JS "url", JString (url a))]
           ++ opt "description"%string (description a)
           ++ opt "category"%string (category a)
           ++ opt "thumbnail"%string (thumbnail a)).

Definition LOAD_ERROR_MESSAGE : jsstring :=
  JS "원격 apps.json을 불러오지 못해 내장 예시 데이터를 표시합니다. (배포 시 /apps.json을 루트에 두세요)".

Record LoadState := mkLoadState {
  apps : option (list JSON);
  loadError : option jsstring
}.

(** The body of the [try] block; [None] is a throw or a rejected await. *)
Definition load_try (r : FetchOutcome) : option (list JSON) :=
  match r with
  | FetchRejected => None
  | FetchResolved ok json =>
    if negb ok then None
    else
      match json with
      | None => None
      | Some data =>
        let list :=
          match data with
          | JArray l => l
          | _ => match get_apps data with
                 | Some (JArray l) => l
                 | _ => []
                 end
          end in
        if (length list =? 0)%nat then None else Some list
      end
  end.

(** The load effect: [setLoadError(null)] runs at once; when the request
    has ended the setters run unless the clean-up has set [cancelled]. *)
Definition load (cancelled : bool) (r : FetchOutcome) (st : LoadState)
  : LoadState :=
  let st0 := mkLoadState (apps st) None in
  match load_try r with
  | Some list =>
    if negb cancelled then mkLoadState (Some list) (loadError st0) else st0
  | None =>
    if negb cancelled
    then mkLoadState (Some (map AppItem_JSON FALLBACK_APPS))
                     (Some LOAD_ERROR_MESSAGE)
    else st0
  end.

(** ** Persisted state *)

(** [localStorage]: access is blocked (every call throws), or it is a
    store of entries, keys distinct, in insertion order, that may refuse a
    write ([accepts] false: the call throws QuotaExceededError). *)
Inductive Storage :=
| StorageBlocked
| StorageOpen (accepts : jsstring -> jsstring -> bool)
              (entries : list (jsstring * jsstring)).

(** [localStorage.getItem(key)]: the outer [None] is a throw, the inner
    one the answer [null]. *)
Definition getItem (st : Storage) (k : jsstring) : option (option jsstring) :=
  match st with
  | StorageBlocked => None
  | StorageOpen _ es =>
    Some (option_map snd (find (fun e => str_eqb (fst e) k) es))
  end.

Definition entries_set (es : list (jsstring * jsstring)) (k v : jsstring)
  : list (jsstring * jsstring) :=
  if existsb (fun e => str_eqb (fst e) k) es
  then map (fun e => if str_eqb (fst e) k then (fst e, v) else e) es
  else es ++ [(k, v)].

(** [localStorage.setItem(key, value)]; [None] is a throw, which leaves
    the store as it was. *)
Definition setItem (st : Storage) (k v : jsstring) : option Storage :=
  match st with
  | StorageBlocked => None
  | StorageOpen accepts es =>
    if accepts k v then Some (StorageOpen accepts (entries_set es k v))
    else None
  end.

(** [JSON.parse] ([None] when it throws) and [JSON.stringify] on a value
    that has a JSON text. *)
Class Json := {
  JSON_parse : jsstring -> option JSON;
  JSON_stringify : JSON -> jsstring
}.

Section PersistentState.
Context {J : Json}.

(** The initialiser handed to [useState]: the stored text, parsed, when
    there is one; [initial] when there is none, when it is empty, and when
    reading or parsing throws.  The cast [as T] checks nothing. *)
Definition usePersistentState_initial (storage : Storage) (key_ : jsstring)
           (initial : JSON) : JSON :=
  match getItem storage key_ with
  | None => initial
  | Some raw =>
    match raw with
    | Some r =>
      if truthy r
      then match JSON_parse r with Some v => v | None => initial end
      else initial
    | None => initial
    end
  end.

(** The body of the effect: the write, with a throw swallowed. *)
Definition usePersistentState_effect (storage : Storage) (key_ : jsstring)
           (value : JSON) : Storage :=
  match setItem storage key_ (JSON_stringify value) with
  | Some storage' => storage'
  | None => storage
  end.
End PersistentState.

(** ** Cards and grids *)

(** [String(n)] for an integer that a double holds exactly and that is
    below 10^21 in size, as a template literal inserts it: the decimal
    digits, after a minus sign when negative. *)
Definition decimal (n : Z) : jsstring :=
  map (fun a => Z.of_N (Ascii.N_of_ascii a))
      (String.list_ascii_of_string
         (DecimalString.NilZero.string_of_int (Z.to_int n))).

(** [arr.map((a, i) => f(a, i))] *)
Fixpoint map_index_from {A B : Type} (f : A -> nat -> B) (i : nat)
         (l : list A) : list B :=
  match l with
  | [] => []
  | a :: r => f a i :: map_index_from f (S i) r
  end.

Definition map_index {A B : Type} (f : A -> nat -> B) (l : list A) : list B :=
  map_index_from f 0 l.

(** What a card shows in place of the thumbnail. *)
Inductive Thumb :=
| ThumbImage (src alt : jsstring)
| ThumbPlaceholder (background label : jsstring).

(** The data a card renders: the thumbnail, the heading, the category
    badge, the URL (tooltip, target of "open" and "copy"), the host line
    and the description paragraph when there is one. *)
Record Card := mkCard {
  card_thumb : Thumb;
  card_title : jsstring;
  card_badge : jsstring;
  card_url : jsstring;
  card_host : jsstring;
  card_description : option jsstring
}.

(** An optional string used as a condition. *)
Definition truthy_opt (o : option jsstring) : bool :=
  match o with Some s => truthy s | None => false end.

Definition PlaceholderThumb (seed label : jsstring) : Thumb :=
  let c := hashToHsl seed in
  let bg := JS "hsl(" ++ decimal (hsl_h c) ++ JS " " ++ decimal (hsl_s c)
               ++ JS "% " ++ decimal (hsl_l c) ++ JS "%)" in
  ThumbPlaceholder bg label.

(** A child element with its React key. *)
Definition Keyed (A : Type) : Type := (jsstring * A)%type.

(** A section of the grouped grid: its React key, its heading, the count
    beside the heading and its cards. *)
Record GridSection := mkGridSection {
  section_key : jsstring;
  section_heading : jsstring;
  section_count : nat;
  section_cards : list (Keyed Card)
}.

Inductive ViewMode := ViewGrouped | ViewFlat.

(** What the page shows below the header. *)
Inductive Body :=
| BodyLoading
| BodyNoMatch
| BodyFlat (cards : list (Keyed Card))
| BodyGrouped (sections : list GridSection).

Record Page := mkPage {
  page_options : list jsstring;
  page_banner : option jsstring;
  page_body : Body
}.

Section Rendering.
Context {RT : Runtime}.

Definition AppCard (app : AppItem) : Card :=
  let host := getHostname (url app) in
  let sub := getSubdomainForSort (url app) in
  let thumb := thumbnail app in
  mkCard
    (if truthy_opt thumb then ThumbImage (nullish thumb []) (title app)
     else PlaceholderThumb host (initialsFrom sub))
    (title app)
    (if truthy_opt (category app) then nullish (category app) []
     else UNCATEGORIZED)
    (url app)
    host
    (if truthy_opt (description app) then description app else None).

Definition FlatGrid (apps_ : list AppItem) : list (Keyed Card) :=
  map_index
    (fun a i => (url a ++ JS "-" ++ decimal (Z.of_nat i), AppCard a)) apps_.

Definition GroupedGrid (groups : list Group) : list GridSection :=
  map (fun g =>
         mkGridSection (key g) (key g) (length (items g))
           (map_index
              (fun a i =>
                 (key g ++ JS "-" ++ url a ++ JS "-" ++ decimal (Z.of_nat i),
                  AppCard a))
              (items g)))
      groups.

(** What [App] returns, as far as it depends on the data: the options of
    the category select, the advisory banner and the body. *)
Definition App (apps_ : option (list AppItem)) (loadError_ : option jsstring)
           (query : jsstring) (sort : SortMode) (view : ViewMode)
           (category_ : jsstring) : Page :=
  let normalized_ := normalized apps_ query sort category_ in
  let grouped_ := grouped normalized_ in
  mkPage
    (categories apps_)
    (if truthy_opt loadError_ then loadError_ else None)
    (match apps_ with
     | None => BodyLoading
     | Some _ =>
       if (length normalized_ =? 0)%nat then BodyNoMatch
       else match view with
            | ViewFlat => BodyFlat (FlatGrid normalized_)
            | ViewGrouped => BodyGrouped (GroupedGrid grouped_)
            end
     end).
End Rendering.

(** ** The dev tests *)

Inductive ConsoleLevel :=
| ConsoleLog
| ConsoleError
| ConsoleGroupCollapsed
| ConsoleGroupEnd.

(** A call of a [console] method with its arguments. *)
Record ConsoleEntry := mkConsoleEntry {
  entry_level : ConsoleLevel;
  entry_args : list jsstring
}.

Section DevTests.
Context {RT : Runtime}.

(** The table of tests, each with the value its function returns; none of
    the functions can throw. *)
Definition devTests : list (jsstring * bool) :=
  [ (JS "getHostname: studio.huny.dev",
     str_eqb (getHostname (JS "https://studio.huny.dev/x"))
             (JS "studio.huny.dev"));
    (JS "getSubdomainForSort: studio",
     str_eqb (getSubdomainForSort (JS "https://studio.huny.dev"))
             (JS "studio"));
    (JS "getSubdomainForSort: apex",
     str_eqb (getSubdomainForSort (JS "https://huny.dev")) (JS "huny.dev"));
    (JS "initialsFrom: 'Voice Conversion' => VC",
     str_eqb (initialsFrom (JS "Voice Conversion")) (JS "VC"));
    (JS "initialsFrom: 'Studio' => S",
     str_eqb (initialsFrom (JS "Studio")) (JS "S"));
    (JS "hashToHsl: hue range",
     let h := hsl_h (hashToHsl (JS "test")) in (0 <=? h) && (h <? 360)) ].

(** One turn of the loop: the console entry of the test and the count of
    passed tests. *)
Definition devTest_step (acc : list ConsoleEntry * nat)
           (test : jsstring * bool) : list ConsoleEntry * nat :=
  let (out, passed) := acc in
  let (name, ok) := test in
  if negb ok then (out ++ [mkConsoleEntry ConsoleError [JS "❌"; name]], passed)
  else (out ++ [mkConsoleEntry ConsoleLog [JS "✅"; name]], S passed).

(** The console calls of [runDevTests], in order, on a host that has a
    console with the two grouping methods. *)
Definition runDevTests : list ConsoleEntry :=
  let (out, passed) := fold_left devTest_step devTests ([], 0%nat) in
  [mkConsoleEntry ConsoleGroupCollapsed [JS "apps.huny.dev – dev tests"]]
    ++ out
    ++ [mkConsoleEntry ConsoleLog
          [decimal (Z.of_nat passed) ++ JS "/"
             ++ decimal (Z.of_nat (length devTests))
             ++ JS " tests passed."]]
    ++ [mkConsoleEntry ConsoleGroupEnd []].
End DevTests.

(** ** A reference runtime

    A small instance of [Runtime] for concrete runs.  It follows the
    engine on Basic Latin letters: case mapping of A-Z / a-z, collation
    that compares letters without regard to case first and puts the
    lower-case form first among strings that differ in case only, and URLs
    of the shape [http(s)://host] followed by nothing or by a path, query
    or fragment, with [host] made of lower-case letters, "." and "-".
    Every other string is reported as not parsing. *)
Module Ref.

Definition lowerUnit (c : Z) : Z :=
  if (65 <=? c) && (c <=? 90) then c + 32 else c.

Definition upperUnit (c : Z) : Z :=
  if (97 <=? c) && (c <=? 122) then c - 32 else c.

(** Exchanges the two cases, so that lower case comes first. *)
Definition swapUnit (c : Z) : Z :=
  if (65 <=? c) && (c <=? 90) then c + 32
  else if (97 <=? c) && (c <=? 122) then c - 32 else c.

Fixpoint compareUnits (a b : jsstring) : Z :=
  match a, b with
  | [], [] => 0
  | [], _ :: _ => -1
  | _ :: _, [] => 1
  | x :: a', y :: b' =>
    if x <? y then -1 else if y <? x then 1 else compareUnits a' b'
  end.

Definition collate (a b : jsstring) : Z :=
  let p := compareUnits (map lowerUnit a) (map lowerUnit b) in
  if p =? 0 then compareUnits (map swapUnit a) (map swapUnit b) else p.

Definition isHostUnit (c : Z) : bool :=
  ((97 <=? c) && (c <=? 122)) || (c =? DOT) || (c =? HYPHEN).

Fixpoint takeHost (s : jsstring) : jsstring * jsstring :=
  match s with
  | [] => ([], [])
  | c :: r =>
    if isHostUnit c then let (h, t) := takeHost r in (c :: h, t)
    else ([], s)
  end.

Definition hostname (u : jsstring) : option jsstring :=
  let after :=
    if startsWith u (JS "https://") then Some (skipn 8 u)
    else if startsWith u (JS "http://") then Some (skipn 7 u)
    else None in
  match after with
  | None => None
  | Some r =>
    let (h, t) := takeHost r in
    let ended :=
      match t with
      | [] => true
      | c :: _ => (c =? 47) || (c =? 63) || (c =? 35)
      end in
    if truthy h && ended then Some h else None
  end.

Definition runtime : Runtime := {|
  URL_hostname := hostname;
  toLowerCase := map lowerUnit;
  toUpperCase := map upperUnit;
  localeCompare := collate;
  localeCompareNumeric := collate
|}.

End Ref.

(** A reference [Json] for concrete runs.  It follows the engine on
    [null], the booleans, integers and strings whose units need no escape
    (no quote, backslash, control unit or surrogate); it writes every
    other value as [null] and reads no other text. *)
Module RefJson.

Definition plainUnit (c : Z) : bool :=
  (32 <=? c) && negb (c =? 34) && negb (c =? 92)
  && ((c <? 0xD800) || (0xDFFF <? c)).

Definition stringify (v : JSON) : jsstring :=
  match v with
  | JNull => JS "null"
  | JBool true => JS "true"
  | JBool false => JS "false"
  | JNumber n => decimal n
  | JString s => if forallb plainUnit s then [34] ++ s ++ [34] else JS "null"
  | _ => JS "null"
  end.

Definition parse (r : jsstring) : option JSON :=
  if str_eqb r (JS "null") then Some JNull
  else if str_eqb r (JS "true") then Some (JBool true)
  else if str_eqb r (JS "false") then Some (JBool false)
  else
    match r with
    | 34 :: r' =>
      match rev r' with
      | 34 :: inner =>
        if forallb plainUnit inner then Some (JString (rev inner)) else None
      | _ => None
      end
    | _ => None
    end.

Definition json : Json := {|
  JSON_parse := parse;
  JSON_stringify := stringify
|}.

End RefJson.

(** * The vocabulary of the specification *)

(** [q] occurs in [hay] as a run of consecutive code units. *)
Definition is_substring (q hay : jsstring) : Prop :=
  exists pre suf, hay = pre ++ q ++ suf.

(** The hash as the specification words it. *)
Definition hash32 (seed : jsstring) : Z :=
  fold_left (fun hash charCode => (hash * 31 + charCode) mod 2 ^ 32) seed 0.

(** The root suffix test and the label count, as propositions. *)
Definition under_root (host : jsstring) : Prop :=
  (exists pre, host = pre ++ JS "huny.dev")
  /\ (3 <= length (split_dot host))%nat.

(** The units the specification splits on. *)
Definition isSeparator (c : Z) : bool :=
  isWhiteSpace c || (c =? DOT) || (c =? HYPHEN).

(** The tokens as the specification words them: split at every separator
    unit, drop the empty pieces. *)
Definition tokens (t : jsstring) : list jsstring :=
  filter truthy (split_on isSeparator t).

(** The value a parsed object has for a field: that of the last binding
    of the name among its fields. *)
Definition field_of (fields : list (jsstring * JSON)) (name : jsstring)
           (v : JSON) : Prop :=
  exists before after,
    fields = before ++ (name, v) :: after /\ ~ In name (map fst after).

(** The request succeeded with a non-empty sequence [l]: the status is OK,
    the body parsed, and the value is the array [l] or an object whose
    field [apps] is the array [l]. *)
Inductive load_success : FetchOutcome -> list JSON -> Prop :=
| success_array (l : list JSON) :
    l <> [] -> load_success (FetchResolved true (Some (JArray l))) l
| success_apps (fields : list (jsstring * JSON)) (l : list JSON) :
    field_of fields (JS "apps") (JArray l) -> l <> [] ->
    load_success (FetchResolved true (Some (JObject fields))) l.

(** The parsed value is neither an array nor an object whose field [apps]
    is an array. *)
Definition wrong_shape (data : JSON) : Prop :=
  (forall l, data <> JArray l)
  /\ (forall fields l, data = JObject fields ->
                       ~ field_of fields (JS "apps") (JArray l)).

(** The parsed value holds the empty sequence: it is the empty array, or
    an object whose field [apps] is the empty array. *)
Definition empty_sequence (data : JSON) : Prop :=
  data = JArray []
  \/ (exists fields, data = JObject fields
                     /\ field_of fields (JS "apps") (JArray [])).

(** The ways the request can fail. *)
Inductive load_failure : FetchOutcome -> Prop :=
| failure_network : load_failure FetchRejected
| failure_status (json : option JSON) :
    load_failure (FetchResolved false json)
| failure_parse : load_failure (FetchResolved true None)
| failure_shape (data : JSON) :
    wrong_shape data -> load_failure (FetchResolved true (Some data))
| failure_empty (data : JSON) :
    empty_sequence data -> load_failure (FetchResolved true (Some data)).


(** The order a comparator stands for. *)
Definition cmp_le {A : Type} (cmp : A -> A -> Z) (x y : A) : Prop :=
  cmp x y <= 0.

(** The members of a [Set] filled from a list, in insertion order. *)
Definition distinct (ks : list jsstring) : list jsstring :=
  fold_left Set_add ks [].

(** The category keys of a list, each once, in order of first appearance. *)
Definition keysOf (l : list AppItem) : list jsstring :=
  distinct (map categoryKey l).

(** The records of [l] whose category key is [k], in the order of [l]. *)
Definition bucket (l : list AppItem) (k : jsstring) : list AppItem :=
  filter (fun a => str_eqb (categoryKey a) k) l.

(** CategoryKey as the specification words it: the category of the
    record, or the "uncategorized" sentinel when the record has none. *)
Definition CategoryKey_spec (a : AppItem) : jsstring :=
  match category a with
  | Some c => c
  | None => UNCATEGORIZED
  end.

(** A host under the root domain: the root suffix after a dot. *)
Definition subdomain_of_root (host : jsstring) : Prop :=
  exists pre, host = pre ++ JS ".huny.dev".

(** A foreign host: neither the apex nor under the root domain. *)
Definition foreign_host (host : jsstring) : Prop :=
  host <> JS "huny.dev" /\ ~ subdomain_of_root host.

(** A catalog with a record whose category is the text of the sentinel. *)
Definition sentinel_catalog : list AppItem :=
  [ mkAppItem (JS "Everything") (JS "https://all.huny.dev") None
              (Some (JS "전체")) None;
    mkAppItem (JS "Docs") (JS "https://docs.huny.dev") None
              (Some (JS "문서")) None ].

(** Three records whose categories differ in case only. *)
Definition case_catalog : list AppItem :=
  [ mkAppItem (JS "X") (JS "https://a.huny.dev") None (Some (JS "AI")) None;
    mkAppItem (JS "Y") (JS "https://b.huny.dev") None (Some (JS "ai")) None;
    mkAppItem (JS "Z") (JS "https://c.huny.dev") None (Some (JS "AI")) None ].

(** The same, with one URL for all three, so that they tie on the name as
    well. *)
Definition tie_catalog : list AppItem :=
  [ mkAppItem (JS "X") (JS "https://a.huny.dev") None (Some (JS "AI")) None;
    mkAppItem (JS "Y") (JS "https://a.huny.dev") None (Some (JS "ai")) None;
    mkAppItem (JS "Z") (JS "https://a.huny.dev") None (Some (JS "AI")) None ].

Section Vocabulary.
Context {RT : Runtime}.

(** Initials as the specification words it. *)
Definition Initials_spec (text : jsstring) : jsstring :=
  match trim text with
  | [] => JS "?"
  | t =>
    let first := firstUnit (tokens t) 0 in
    let second := firstUnit (tokens t) 1 in
    toUpperCase (first ++ second)
  end.

(** The text a query is matched against. *)
Definition searchable (a : AppItem) : jsstring :=
  title a ++ NEWLINE ++ nullish (description a) [] ++ NEWLINE ++ url a
    ++ NEWLINE ++ getHostname (url a)
    ++ NEWLINE ++ getSubdomainForSort (url a).

(** The two predicates as the specification words them; matching without
    regard to case compares the lower-cased forms. *)
Definition text_predicate (query : jsstring) (a : AppItem) : Prop :=
  trim query = []
  \/ is_substring (toLowerCase (trim query)) (toLowerCase (searchable a)).

Definition category_predicate (categoryFilter : jsstring) (a : AppItem)
  : Prop :=
  categoryFilter = ALL
  \/ toLowerCase (CategoryKey_spec a) = toLowerCase categoryFilter.

(** The partitions come in the order of the plain comparison of the raw
    keys; [key_before a b] says that [a]'s partition is [b]'s or comes
    before it. *)
Definition key_lt (k k' : jsstring) : Prop := localeCompare k k' < 0.

Definition key_before (a b : AppItem) : Prop :=
  categoryKey a = categoryKey b \/ key_lt (categoryKey a) (categoryKey b).

(** The two orders agree on a catalog: keys that are equal after case
    folding are equal, and where the numeric-aware comparison puts one
    folded key no later than another, different one, the plain comparison
    puts the raw keys strictly in that order. *)
Definition keys_agree (catalog : list AppItem) : Prop :=
  forall a b, In a catalog -> In b catalog ->
    let ca := toLowerCase (categoryKey a) in
    let cb := toLowerCase (categoryKey b) in
    (ca = cb -> categoryKey a = categoryKey b)
    /\ (ca <> cb -> localeCompareNumeric ca cb <= 0 ->
        key_lt (categoryKey a) (categoryKey b)).

Definition keys_agreeb (catalog : list AppItem) : bool :=
  forallb (fun a =>
    forallb (fun b =>
      let ca := toLowerCase (categoryKey a) in
      let cb := toLowerCase (categoryKey b) in
      if str_eqb ca cb then str_eqb (categoryKey a) (categoryKey b)
      else implb (localeCompareNumeric ca cb <=? 0)
                 (localeCompare (categoryKey a) (categoryKey b) <? 0))
    catalog) catalog.

End Vocabulary.

(** Two records tie when the comparator puts neither after the other. *)
Definition tied {A : Type} (cmp : A -> A -> Z) (x y : A) : bool :=
  (cmp x y <=? 0) && (cmp y x <=? 0).

(** The keys a store holds, in insertion order. *)
Definition storage_keys (st : Storage) : list jsstring :=
  match st with
  | StorageBlocked => []
  | StorageOpen _ es => map fst es
  end.

(** The cards of a grid, without their keys, in the order shown. *)
Definition section_cards_all (secs : list GridSection) : list Card :=
  flat_map (fun s => map snd (section_cards s)) secs.

Definition body_cards (b : Body) : list Card :=
  match b with
  | BodyLoading => []
  | BodyNoMatch => []
  | BodyFlat cards => map snd cards
  | BodyGrouped secs => section_cards_all secs
  end.

(** A code unit of a literal written in Basic Latin. *)
Definition unit_of_ascii (a : Ascii.ascii) : Z := Z.of_N (Ascii.N_of_ascii a).

(** A child whose React key ends in a hyphen and the index. *)
Definition keyed_child {A B : Type} (pre : A -> jsstring) (g : A -> B)
           (a : A) (j : nat) : Keyed B :=
  (pre a ++ JS "-" ++ decimal (Z.of_nat j), g a).

(** * Properties *)

(** ** Facts about the exact built-ins *)

Lemma str_eqb_eq (a b : jsstring) : str_eqb a b = true <-> a = b.
Proof.
  unfold str_eqb. destruct (list_eq_dec Z.eq_dec a b); split; congruence.
Qed.

Lemma str_eqb_neq (a b : jsstring) : str_eqb a b = false <-> a <> b.
Proof.
  unfold str_eqb. destruct (list_eq_dec Z.eq_dec a b); split; congruence.
Qed.

Lemma str_eqb_refl (a : jsstring) : str_eqb a a = true.
Proof. now apply str_eqb_eq. Qed.

Lemma str_eqb_sym (a b : jsstring) : str_eqb a b = str_eqb b a.
Proof.
  destruct (str_eqb b a) eqn:E.
  - apply str_eqb_eq in E. subst. apply str_eqb_refl.
  - apply str_eqb_neq in E. apply str_eqb_neq. congruence.
Qed.

Lemma truthy_nonempty (s : jsstring) : truthy s = true <-> s <> [].
Proof. destruct s; simpl; split; congruence. Qed.

Lemma truthy_empty (s : jsstring) : truthy s = false <-> s = [].
Proof. destruct s; simpl; split; congruence. Qed.

Lemma startsWith_spec (s p : jsstring) :
  startsWith s p = true <-> exists t, s = p ++ t.
Proof.
  revert s. induction p as [|x p IH]; intros [|y s]; simpl.
  - split; [intros _; now exists [] | reflexivity].
  - split; [intros _; now exists (y :: s) | reflexivity].
  - split; [discriminate | intros [t H]; discriminate].
  - rewrite andb_true_iff, Z.eqb_eq, IH. split.
    + intros [-> [t ->]]. now exists t.
    + intros [t H]. injection H as -> ->. split; [reflexivity | now exists t].
Qed.

Lemma endsWith_spec (s p : jsstring) :
  endsWith s p = true <-> exists t, s = t ++ p.
Proof.
  unfold endsWith. rewrite startsWith_spec. split.
  - intros [t H]. exists (rev t).
    rewrite <- (rev_involutive s), H, rev_app_distr, rev_involutive.
    reflexivity.
  - intros [t ->]. exists (rev t). apply rev_app_distr.
Qed.

Lemma includes_spec (hay q : jsstring) :
  includes hay q = true <-> is_substring q hay.
Proof.
  induction hay as [|c hay IH].
  - cbn [includes]. rewrite orb_false_r, startsWith_spec. split.
    + intros [t H]. now exists [], t.
    + intros [pre [suf H]]. destruct pre; [now exists suf | discriminate].
  - cbn [includes]. rewrite orb_true_iff, startsWith_spec, IH. split.
    + intros [[t H] | [pre [suf H]]].
      * now exists [], t.
      * exists (c :: pre), suf. now rewrite H.
    + intros [pre [suf H]]. destruct pre as [|d pre].
      * left. now exists suf.
      * right. injection H as _ H. now exists pre, suf.
Qed.

(** [trim] removes white space at both ends and nothing else, and what
    it returns neither starts nor ends with white space. *)
Lemma trimStart_decomp (s : jsstring) :
  exists ws, s = ws ++ trimStart s /\ Forall (fun c => isWhiteSpace c = true) ws.
Proof.
  induction s as [|c r [ws [E F]]]; simpl.
  - exists []. split; [reflexivity | constructor].
  - destruct (isWhiteSpace c) eqn:W.
    + exists (c :: ws). split; [simpl; now rewrite <- E | now constructor].
    + exists []. split; [reflexivity | constructor].
Qed.

Lemma trimStart_head (s : jsstring) (c : Z) (r : jsstring) :
  trimStart s = c :: r -> isWhiteSpace c = false.
Proof.
  induction s as [|d s IH]; simpl; [discriminate|].
  destruct (isWhiteSpace d) eqn:W; [exact IH|].
  intros H. injection H as <- _. exact W.
Qed.

Lemma trimEnd_decomp (s : jsstring) :
  exists ws, s = trimEnd s ++ ws /\ Forall (fun c => isWhiteSpace c = true) ws.
Proof.
  destruct (trimStart_decomp (rev s)) as [ws [E F]].
  exists (rev ws). split.
  - unfold trimEnd. rewrite <- rev_app_distr, <- E. now rewrite rev_involutive.
  - now apply Forall_rev.
Qed.

Lemma trimEnd_last (s r : jsstring) (c : Z) :
  trimEnd s = r ++ [c] -> isWhiteSpace c = false.
Proof.
  unfold trimEnd. intros H. apply (f_equal (@rev Z)) in H.
  rewrite rev_involutive, rev_app_distr in H. simpl in H.
  exact (trimStart_head _ _ _ H).
Qed.

Lemma trim_decomp (s : jsstring) :
  exists ws1 ws2,
    s = ws1 ++ trim s ++ ws2
    /\ Forall (fun c => isWhiteSpace c = true) ws1
    /\ Forall (fun c => isWhiteSpace c = true) ws2.
Proof.
  destruct (trimStart_decomp s) as [ws1 [E1 F1]].
  destruct (trimEnd_decomp (trimStart s)) as [ws2 [E2 F2]].
  exists ws1, ws2. unfold trim. now rewrite <- E2.
Qed.

Lemma trim_ends (s : jsstring) :
  (forall c r, trim s = c :: r -> isWhiteSpace c = false)
  /\ (forall r c, trim s = r ++ [c] -> isWhiteSpace c = false).
Proof.
  split.
  - intros c r H. destruct (trimEnd_decomp (trimStart s)) as [ws [E _]].
    fold (trim s) in E. rewrite H in E. simpl in E.
    exact (trimStart_head _ _ _ E).
  - intros r c H. exact (trimEnd_last _ _ _ H).
Qed.

Lemma split_go_nonempty (sep : Z -> bool) (cur s : jsstring) :
  split_go sep cur s <> [].
Proof.
  revert cur. induction s as [|c r IH]; intros cur; simpl; [discriminate|].
  destruct (sep c); [discriminate | apply IH].
Qed.

Lemma join_cons (sep p : jsstring) (ps : list jsstring) :
  ps <> [] -> join sep (p :: ps) = p ++ sep ++ join sep ps.
Proof. destruct ps; [congruence | reflexivity]. Qed.

(** The pieces of [s.split(".")], put together again with dots, are [s],
    no piece holds a dot, and there is one more piece than there are dots:
    the pieces are the dot-separated labels. *)
Lemma split_go_dot_join (cur s : jsstring) :
  join [DOT] (split_go (Z.eqb DOT) cur s) = cur ++ s.
Proof.
  revert cur. induction s as [|c r IH]; intros cur; cbn [split_go].
  - simpl. now rewrite app_nil_r.
  - destruct (Z.eqb_spec DOT c) as [<-|_].
    + rewrite join_cons by apply split_go_nonempty. now rewrite IH.
    + rewrite IH, <- app_assoc. reflexivity.
Qed.

Lemma split_dot_join (s : jsstring) : join [DOT] (split_dot s) = s.
Proof. apply split_go_dot_join. Qed.

Lemma split_go_dot_free (cur s : jsstring) :
  ~ In DOT cur -> Forall (fun p => ~ In DOT p) (split_go (Z.eqb DOT) cur s).
Proof.
  revert cur. induction s as [|c r IH]; intros cur Hc; cbn [split_go].
  - now constructor.
  - destruct (Z.eqb_spec DOT c) as [<-|Hn].
    + constructor; [assumption | apply IH; intros []].
    + apply IH. rewrite in_app_iff. intros [H|[H|[]]]; [auto | congruence].
Qed.

Lemma split_dot_free (s : jsstring) :
  Forall (fun p => ~ In DOT p) (split_dot s).
Proof. apply split_go_dot_free. intros []. Qed.

Lemma split_go_dot_length (cur s : jsstring) :
  length (split_go (Z.eqb DOT) cur s) = S (count_occ Z.eq_dec s DOT).
Proof.
  revert cur. induction s as [|c r IH]; intros cur;
    cbn [split_go count_occ length]; [reflexivity|].
  destruct (Z.eqb_spec DOT c) as [<-|Hn].
  - destruct (Z.eq_dec DOT DOT); [|congruence]. cbn [length]. now rewrite IH.
  - destruct (Z.eq_dec c DOT); [congruence|]. apply IH.
Qed.

Lemma split_dot_length (s : jsstring) :
  length (split_dot s) = S (count_occ Z.eq_dec s DOT).
Proof. apply split_go_dot_length. Qed.

(** ** SeededColor *)

Lemma ushr_0 (x : Z) : ushr x 0 = x mod 2 ^ 32.
Proof. unfold ushr. now rewrite Z.mod_0_l, Z.shiftr_0_r by lia. Qed.

Lemma fold_hash_eq (seed : jsstring) (h0 : Z) :
  fold_left (fun h c => ushr (h * 31 + c) 0) seed h0
  = fold_left (fun hash charCode => (hash * 31 + charCode) mod 2 ^ 32) seed h0.
Proof.
  revert h0. induction seed as [|c r IH]; intros h0; simpl; [reflexivity|].
  now rewrite ushr_0, IH.
Qed.

Lemma fold_hash_range (seed : jsstring) (h0 : Z) :
  0 <= h0 < 2 ^ 32 ->
  0 <= fold_left (fun hash charCode => (hash * 31 + charCode) mod 2 ^ 32)
                 seed h0 < 2 ^ 32.
Proof.
  revert h0. induction seed as [|c r IH]; intros h0 H; simpl; [assumption|].
  apply IH. apply Z.mod_pos_bound. lia.
Qed.

Lemma hash32_range (seed : jsstring) : 0 <= hash32 seed < 2 ^ 32.
Proof. apply fold_hash_range. lia. Qed.

(** Numbers are doubles: the sum the loop forms before [>>> 0] stays below
    2^53 for code units, so it is computed without rounding. *)
Lemma hash_step_exact (h c : Z) :
  0 <= h < 2 ^ 32 -> 0 <= c < 2 ^ 16 -> 0 <= h * 31 + c < 2 ^ 53.
Proof. lia. Qed.

(** C9: for every seed the colour is (hash mod 360, 65, 50), where hash is
    the 32-bit accumulation hash = (hash * 31 + charCode) mod 2^32 from 0;
    the hue lies in [0, 360); equal seeds give the identical tuple. *)
Theorem hashToHsl_seeded_color (seed : jsstring) :
  hashToHsl seed = mkHsl (hash32 seed mod 360) 65 50
  /\ 0 <= hash32 seed < 2 ^ 32
  /\ 0 <= hsl_h (hashToHsl seed) < 360
  /\ hsl_s (hashToHsl seed) = 65
  /\ hsl_l (hashToHsl seed) = 50
  /\ (forall seed', seed' = seed -> hashToHsl seed' = hashToHsl seed).
Proof.
  assert (E : hashToHsl seed = mkHsl (hash32 seed mod 360) 65 50).
  { unfold hashToHsl. rewrite fold_hash_eq. fold (hash32 seed).
    pose proof (hash32_range seed). rewrite Z.rem_mod_nonneg by lia.
    reflexivity. }
  rewrite E. simpl. repeat split; try apply hash32_range.
  - apply Z.mod_pos_bound. lia.
  - apply Z.mod_pos_bound. lia.
  - intros seed' ->. exact E.
Qed.

Lemma hashToHsl_seeded_color_witness :
  hashToHsl (JS "studio.huny.dev") = mkHsl 351 65 50
  /\ hashToHsl (JS "studio.huny.dev") = hashToHsl (JS "studio.huny.dev").
Proof.
  destruct (hashToHsl_seeded_color (JS "studio.huny.dev"))
    as [E [_ [_ [_ [_ D]]]]].
  split; [rewrite E; reflexivity | apply D; reflexivity].
Defined.

(** ** Hostname and SortKey *)

Section SortKey.
Context {RT : Runtime}.

Lemma getHostname_parsed (u host : jsstring) :
  URL_hostname u = Some host -> getHostname u = host.
Proof. unfold getHostname. now intros ->. Qed.


Lemma getSubdomainForSort_under_root (u : jsstring) :
  under_root (getHostname u) ->
  getSubdomainForSort u = nth 0 (split_dot (getHostname u)) [].
Proof.
  intros [Hs Hl]. unfold getSubdomainForSort.
  apply endsWith_spec in Hs. rewrite Hs.
  apply Nat.leb_le in Hl. now rewrite Hl.
Qed.

Lemma getSubdomainForSort_otherwise (u : jsstring) :
  ~ under_root (getHostname u) -> getSubdomainForSort u = getHostname u.
Proof.
  intros Hn. unfold getSubdomainForSort.
  destruct (endsWith (getHostname u) (JS "huny.dev")) eqn:Es;
    [|reflexivity].
  destruct (3 <=? length (split_dot (getHostname u)))%nat eqn:El;
    [|reflexivity].
  exfalso. apply Hn. split.
  - now apply endsWith_spec.
  - now apply Nat.leb_le.
Qed.

(** What the code makes of a parsed hostname, with the suffix test as the
    code writes it (the letters of the root suffix, with or without a dot
    before them): the first label when the test holds and there are at
    least three labels, the full hostname otherwise. *)
Lemma getSubdomainForSort_parsed (u host : jsstring) :
  URL_hostname u = Some host ->
  (under_root host -> getSubdomainForSort u = nth 0 (split_dot host) [])
  /\ (~ under_root host -> getSubdomainForSort u = host)
  /\ (host = JS "studio.huny.dev" -> getSubdomainForSort u = JS "studio")
  /\ (host = JS "huny.dev" -> getSubdomainForSort u = JS "huny.dev").
Proof.
  intros Hp. apply getHostname_parsed in Hp.
  split; [|split; [|split]].
  - intros H. rewrite <- Hp in *. now apply getSubdomainForSort_under_root.
  - intros H. rewrite <- Hp in *. now apply getSubdomainForSort_otherwise.
  - intros ->. unfold getSubdomainForSort. rewrite Hp. reflexivity.
  - intros ->. unfold getSubdomainForSort. rewrite Hp. reflexivity.
Qed.

End SortKey.



Lemma getSubdomainForSort_parsed_witness :
  @getSubdomainForSort Ref.runtime (JS "https://studio.huny.dev") = JS "studio"
  /\ @getSubdomainForSort Ref.runtime (JS "https://huny.dev/") = JS "huny.dev".
Proof.
  destruct (@getSubdomainForSort_parsed Ref.runtime
              (JS "https://studio.huny.dev") (JS "studio.huny.dev") eq_refl)
    as [_ [_ [Hsub _]]].
  destruct (@getSubdomainForSort_parsed Ref.runtime
              (JS "https://huny.dev/") (JS "huny.dev") eq_refl)
    as [_ [_ [_ Hapex]]].
  split; [apply Hsub | apply Hapex]; reflexivity.
Defined.

Lemma subdomain_under_root (host : jsstring) :
  subdomain_of_root host -> under_root host.
Proof.
  intros [pre ->]. split.
  - exists (pre ++ [DOT]). now rewrite <- app_assoc.
  - rewrite split_dot_length, count_occ_app.
    change (count_occ Z.eq_dec (JS ".huny.dev") DOT) with 2%nat. lia.
Qed.

Section SortKeyDomains.
Context {RT : Runtime}.

(** Where the code does what the claim says: a host under the root domain
    gives its first label, the apex and every host that does not end in
    the letters of the root suffix give the full host. *)
Lemma getSubdomainForSort_parsed_domains (u host : jsstring) :
  URL_hostname u = Some host ->
  (subdomain_of_root host ->
   getSubdomainForSort u = nth 0 (split_dot host) [])
  /\ (host = JS "huny.dev" -> getSubdomainForSort u = host)
  /\ (~ (exists pre, host = pre ++ JS "huny.dev") ->
      getSubdomainForSort u = host).
Proof.
  intros Hp. apply getHostname_parsed in Hp. split; [|split].
  - intros H. apply subdomain_under_root in H. rewrite <- Hp in *.
    now apply getSubdomainForSort_under_root.
  - intros ->. unfold getSubdomainForSort. rewrite Hp. reflexivity.
  - intros H. rewrite <- Hp. apply getSubdomainForSort_otherwise.
    rewrite Hp. intros [Hs _]. exact (H Hs).
Qed.

(** C3: the code departs from the claim on a foreign host whose name ends
    in the letters of the root suffix.  The host a.b.nothuny.dev is
    neither the apex nor under the root domain, so the claim (and the
    comment in the code: foreign domains use the whole host) asks for the
    full hostname; the suffix test has no dot before the root, so for a
    URL with that hostname the code returns the first label "a". *)
Theorem getSubdomainForSort_foreign_lookalike (u : jsstring) :
  URL_hostname u = Some (JS "a.b.nothuny.dev") ->
  foreign_host (JS "a.b.nothuny.dev")
  /\ getSubdomainForSort u = JS "a"
  /\ getSubdomainForSort u <> JS "a.b.nothuny.dev".
Proof.
  intros Hp.
  assert (E : getSubdomainForSort u = JS "a").
  { unfold getSubdomainForSort, getHostname. rewrite Hp. reflexivity. }
  split; [|split; [exact E | rewrite E; discriminate]].
  split; [discriminate|]. intros [pre H].
  assert (F : endsWith (JS "a.b.nothuny.dev") (JS ".huny.dev") = true)
    by (apply endsWith_spec; now exists pre).
  vm_compute in F. discriminate.
Qed.
End SortKeyDomains.

Lemma getSubdomainForSort_foreign_lookalike_witness :
  @getSubdomainForSort Ref.runtime (JS "https://a.b.nothuny.dev") = JS "a".
Proof.
  destruct (@getSubdomainForSort_foreign_lookalike Ref.runtime
              (JS "https://a.b.nothuny.dev") eq_refl) as [_ [H _]].
  exact H.
Defined.



(** ** Initials *)

Lemma split_re_go_tokens (ws : bool) (cur s : jsstring) :
  (ws = true -> cur = []) ->
  filter truthy (split_re_go ws cur s)
  = filter truthy (split_go isSeparator cur s).
Proof.
  revert ws cur. induction s as [|c r IH]; intros ws cur Hws;
    cbn [split_re_go split_go]; [reflexivity|].
  unfold isSeparator at 1. destruct (isWhiteSpace c) eqn:Ew; cbn [orb].
  - destruct ws.
    + rewrite (Hws eq_refl). cbn [filter truthy]. now apply IH.
    + cbn [filter]. now rewrite IH.
  - destruct ((c =? DOT) || (c =? HYPHEN)) eqn:Ed.
    + cbn [filter]. rewrite IH; [reflexivity | discriminate].
    + apply IH. discriminate.
Qed.

Lemma split_re_tokens (t : jsstring) : filter truthy (split_re t) = tokens t.
Proof. apply split_re_go_tokens. discriminate. Qed.

Lemma tokens_of_separators (cur s : jsstring) :
  Forall (fun c => isSeparator c = true) s ->
  filter truthy (split_go isSeparator cur s) = filter truthy [cur].
Proof.
  intros H. revert cur. induction H as [|c r Hc _ IH]; intros cur;
    cbn [split_go]; [reflexivity|].
  rewrite Hc. cbn [filter]. now rewrite IH.
Qed.

Section Initials.
Context {RT : Runtime}.

Lemma initialsFrom_refines (text : jsstring) :
  initialsFrom text = Initials_spec text.
Proof.
  unfold initialsFrom, Initials_spec.
  destruct (trim text) as [|c t] eqn:E; [reflexivity|].
  cbn [truthy negb]. now rewrite split_re_tokens.
Qed.

(** C8: Initials trims the text, answers "?" when nothing is left, and
    otherwise upper-cases the first unit of the first token followed by
    the first unit of the second token, each empty when absent; "Voice
    Conversion" gives "VC", "Studio" gives "S", the empty text "?". *)
Theorem initialsFrom_initials (text : jsstring) :
  initialsFrom text = Initials_spec text
  /\ (trim text = [] -> initialsFrom text = JS "?")
  /\ (trim text <> [] ->
      initialsFrom text
      = toUpperCase (firstUnit (tokens (trim text)) 0
                     ++ firstUnit (tokens (trim text)) 1))
  /\ (toUpperCase (JS "VC") = JS "VC" ->
      initialsFrom (JS "Voice Conversion") = JS "VC")
  /\ (toUpperCase (JS "S") = JS "S" -> initialsFrom (JS "Studio") = JS "S")
  /\ initialsFrom (JS "") = JS "?".
Proof.
  split; [apply initialsFrom_refines|].
  split; [|split; [|split; [|split]]].
  - intros E. rewrite initialsFrom_refines. unfold Initials_spec.
    now rewrite E.
  - intros E. rewrite initialsFrom_refines. unfold Initials_spec.
    destruct (trim text); [congruence | reflexivity].
  - intros E. rewrite initialsFrom_refines. exact E.
  - intros E. rewrite initialsFrom_refines. exact E.
  - reflexivity.
Qed.

(** C10: a text that is not empty after trimming but holds separators
    only has no token, so Initials is the upper-cased empty string, that
    is the empty string, and not "?"; so for ".", "..." and "- -". *)
Theorem initialsFrom_separators_only :
  toUpperCase [] = [] ->
  (forall text,
      trim text <> [] ->
      Forall (fun c => isSeparator c = true) (trim text) ->
      initialsFrom text = [] /\ initialsFrom text <> JS "?")
  /\ initialsFrom (JS ".") = []
  /\ initialsFrom (JS "...") = []
  /\ initialsFrom (JS "- -") = [].
Proof.
  intros Hup.
  assert (G : forall text,
             trim text <> [] ->
             Forall (fun c => isSeparator c = true) (trim text) ->
             initialsFrom text = []).
  { intros text Hne Hsep. rewrite initialsFrom_refines.
    unfold Initials_spec. destruct (trim text) as [|c t] eqn:E;
      [congruence|].
    unfold tokens, split_on. rewrite (tokens_of_separators _ _ Hsep).
    exact Hup. }
  split; [|split; [|split]].
  - intros text Hne Hsep. rewrite (G text Hne Hsep).
    split; [reflexivity | discriminate].
  - apply G; [discriminate | repeat constructor].
  - apply G; [discriminate | repeat constructor].
  - apply G; [discriminate | repeat constructor].
Qed.
End Initials.

Lemma initialsFrom_initials_witness :
  @initialsFrom Ref.runtime (JS "Voice Conversion") = JS "VC"
  /\ @initialsFrom Ref.runtime (JS "Studio") = JS "S"
  /\ @initialsFrom Ref.runtime (JS "  ") = JS "?"
  /\ @initialsFrom Ref.runtime (JS "tts-lab") = JS "TL".
Proof.
  destruct (@initialsFrom_initials Ref.runtime (JS "  ")) as [_ [Hq _]].
  destruct (@initialsFrom_initials Ref.runtime (JS "tts-lab"))
    as [_ [_ [Ht [Hvc [Hs _]]]]].
  split; [|split; [|split]].
  - apply Hvc. reflexivity.
  - apply Hs. reflexivity.
  - apply Hq. reflexivity.
  - rewrite Ht; [reflexivity | discriminate].
Defined.

Lemma initialsFrom_separators_only_witness :
  @initialsFrom Ref.runtime (JS ".") = []
  /\ @initialsFrom Ref.runtime (JS " .- ") = [].
Proof.
  destruct (@initialsFrom_separators_only Ref.runtime eq_refl)
    as [G [H _]].
  split; [exact H|].
  apply G; [discriminate | repeat constructor].
Defined.

(** ** The loader *)

(** [find] returns the first element that passes. *)
Lemma find_first {A : Type} (p : A -> bool) (l : list A) (x : A) :
  find p l = Some x
  <-> exists l1 l2, l = l1 ++ x :: l2 /\ p x = true
                    /\ forall y, In y l1 -> p y = false.
Proof.
  induction l as [|a r IH]; cbn [find].
  - split; [discriminate|]. intros [[|? ?] [l2 [E _]]]; discriminate.
  - destruct (p a) eqn:Ea.
    + split.
      * intros H. injection H as <-. exists [], r.
        split; [reflexivity | split; [exact Ea | intros y []]].
      * intros [[|b l1] [l2 [E [Hx Hl]]]]; injection E as Ha Hr.
        -- now rewrite Ha.
        -- rewrite Ha, (Hl b) in Ea by now left. discriminate.
    + rewrite IH. split.
      * intros [l1 [l2 [-> [Hx Hl]]]]. exists (a :: l1), l2.
        split; [reflexivity | split; [exact Hx|]].
        intros y [<-|Hy]; [exact Ea | now apply Hl].
      * intros [[|b l1] [l2 [E [Hx Hl]]]]; injection E as Ha Hr.
        -- congruence.
        -- exists l1, l2. split; [exact Hr | split; [exact Hx|]].
           intros y Hy. apply Hl. now right.
Qed.

(** [data?.apps] on an object is the value of its field [apps]. *)
Lemma get_apps_field (fields : list (jsstring * JSON)) (v : JSON) :
  get_apps (JObject fields) = Some v <-> field_of fields (JS "apps") v.
Proof.
  cbn [get_apps]. unfold field_of. split.
  - destruct (find _ (rev fields)) as [[k w]|] eqn:E; [|discriminate].
    cbn [option_map snd]. intros H. injection H as ->.
    apply find_first in E. destruct E as [l1 [l2 [E [Hk Hl]]]].
    cbn [fst] in Hk. apply str_eqb_eq in Hk. subst k.
    exists (rev l2), (rev l1). split.
    + rewrite <- (rev_involutive fields), E, rev_app_distr. cbn [rev].
      now rewrite <- app_assoc.
    + intros Hin. apply in_map_iff in Hin. destruct Hin as [y [Hy Hin]].
      apply in_rev in Hin. specialize (Hl y Hin).
      rewrite Hy, str_eqb_refl in Hl. discriminate.
  - intros [before [after [-> Hn]]].
    assert (E : find (fun e => str_eqb (fst e) (JS "apps"))
                     (rev (before ++ (JS "apps", v) :: after))
                = Some (JS "apps", v)).
    { apply find_first. exists (rev after), (rev before).
      split; [|split].
      - rewrite rev_app_distr. cbn [rev]. now rewrite <- app_assoc.
      - apply str_eqb_refl.
      - intros y Hy. apply in_rev in Hy. apply str_eqb_neq. intros Hk.
        apply Hn. apply in_map_iff. now exists y. }
    now rewrite E.
Qed.

Lemma load_try_success (r : FetchOutcome) (l : list JSON) :
  load_success r l -> load_try r = Some l.
Proof.
  intros [l' Hne | fields l' Hget Hne]; cbn [load_try negb].
  - destruct l'; [congruence | reflexivity].
  - apply get_apps_field in Hget. rewrite Hget.
    destruct l'; [congruence | reflexivity].
Qed.

Lemma load_try_failure (r : FetchOutcome) :
  load_failure r -> load_try r = None.
Proof.
  intros [ | json | | data [Ha Hg] | data [-> | [fields [-> Hg]]]];
    cbn [load_try negb]; try reflexivity.
  - destruct data as [| b | n | s | l | fields];
      try reflexivity; [exfalso; eapply Ha; reflexivity|].
    destruct (get_apps (JObject fields)) as [[| b | n | s | l | fs]|] eqn:E;
      try reflexivity.
    exfalso. apply (Hg fields l eq_refl). now apply get_apps_field.
  - apply get_apps_field in Hg. now rewrite Hg.
Qed.



Lemma load_success_not_failure (r : FetchOutcome) (l : list JSON) :
  load_success r l -> ~ load_failure r.
Proof.
  intros Hs Hf. apply load_try_success in Hs. apply load_try_failure in Hf.
  congruence.
Qed.

(** After the clean-up has run, a late result changes nothing more. *)
Lemma load_cancelled (r : FetchOutcome) (st : LoadState) :
  load true r st = mkLoadState (apps st) None.
Proof. unfold load. destruct (load_try r); reflexivity. Qed.


(** ** Filtering *)

Section Filtering.
Context {RT : Runtime}.

(** [a.category ?? UNCATEGORIZED] is the category key of the
    specification. *)
Lemma categoryKey_spec_eq (a : AppItem) : categoryKey a = CategoryKey_spec a.
Proof.
  unfold categoryKey, CategoryKey_spec. now destruct (category a).
Qed.

Lemma passes_category (q cf : jsstring) (a : AppItem) :
  (if str_eqb cf ALL then true
   else str_eqb (toLowerCase (categoryKey a)) (toLowerCase cf)) = true
  <-> category_predicate cf a.
Proof.
  unfold category_predicate. rewrite categoryKey_spec_eq.
  destruct (str_eqb cf ALL) eqn:E.
  - apply str_eqb_eq in E. tauto.
  - apply str_eqb_neq in E. rewrite str_eqb_eq. tauto.
Qed.

Hypothesis toLowerCase_empty : toLowerCase [] = [].

Lemma passes_text (query : jsstring) (a : AppItem) :
  (if truthy (toLowerCase (trim query))
   then includes (toLowerCase (searchable a)) (toLowerCase (trim query))
   else true) = true
  <-> text_predicate query a.
Proof.
  unfold text_predicate.
  destruct (truthy (toLowerCase (trim query))) eqn:E.
  - rewrite includes_spec. split; [tauto|].
    intros [H|H]; [|exact H].
    rewrite H, toLowerCase_empty in E. discriminate.
  - apply truthy_empty in E. rewrite E. split; [|reflexivity].
    intros _. right. now exists [], (toLowerCase (searchable a)).
Qed.

Lemma passes_iff (query cf : jsstring) (a : AppItem) :
  passes (toLowerCase (trim query)) cf a = true
  <-> text_predicate query a /\ category_predicate cf a.
Proof.
  unfold passes. rewrite andb_true_iff.
  rewrite <- passes_text, <- (passes_category (toLowerCase (trim query))).
  reflexivity.
Qed.

(** C5: a record of the catalog is in Filtered exactly when it passes the
    text predicate and the category predicate; nothing else is in
    Filtered, and without a catalog Filtered is empty. *)
Theorem filtered_both_predicates
        (catalog : list AppItem) (query cf : jsstring) (a : AppItem) :
  (In a (filtered (Some catalog) query cf)
   <-> In a catalog /\ text_predicate query a /\ category_predicate cf a)
  /\ filtered None query cf = [].
Proof.
  split; [|reflexivity].
  unfold filtered. rewrite filter_In, passes_iff. reflexivity.
Qed.
End Filtering.

Lemma filtered_both_predicates_witness :
  In (mkAppItem (JS "Studio") (JS "https://studio.huny.dev")
                (Some (JS "내 웹앱 포털(미리보기)")) (Some (JS "포털")) None)
     (@filtered Ref.runtime (Some FALLBACK_APPS) (JS " STUDIO ") (JS "포털"))
  /\ In (mkAppItem (JS "Playground") (JS "https://lab.huny.dev")
                   (Some (JS "각종 실험")) None None)
        (@filtered Ref.runtime (Some FALLBACK_APPS) [] UNCATEGORIZED)
  /\ ~ In (mkAppItem (JS "Studio") (JS "https://studio.huny.dev")
                     (Some (JS "내 웹앱 포털(미리보기)")) (Some (JS "포털"))
                     None)
          (@filtered Ref.runtime (Some FALLBACK_APPS) [] (JS "도구")).
Proof.
  split; [|split].
  - apply (proj1 (@filtered_both_predicates Ref.runtime eq_refl
                    FALLBACK_APPS (JS " STUDIO ") (JS "포털") _)).
    split; [|split].
    + simpl. tauto.
    + right. apply includes_spec. vm_compute. reflexivity.
    + right. reflexivity.
  - apply (proj1 (@filtered_both_predicates Ref.runtime eq_refl
                    FALLBACK_APPS [] UNCATEGORIZED _)).
    split; [|split].
    + simpl. tauto.
    + left. reflexivity.
    + right. reflexivity.
  - intros H.
    apply (proj1 (@filtered_both_predicates Ref.runtime eq_refl
                    FALLBACK_APPS [] (JS "도구") _)) in H.
    destruct H as [_ [_ [Hc|Hc]]]; vm_compute in Hc; discriminate.
Defined.

(** ** Facts about the stable sort *)

Section SortFacts.
Context {A : Type} (cmp : A -> A -> Z).

Lemma sort_insert_perm (x : A) (l : list A) :
  Permutation (sort_insert cmp x l) (x :: l).
Proof.
  induction l as [|y r IH]; simpl; [reflexivity|].
  destruct (cmp x y <=? 0); [reflexivity|].
  rewrite IH. apply perm_swap.
Qed.

Lemma Array_sort_perm (l : list A) : Permutation (Array_sort cmp l) l.
Proof.
  induction l as [|x r IH]; simpl; [reflexivity|].
  rewrite sort_insert_perm. now constructor.
Qed.

Lemma Array_sort_In (l : list A) (x : A) :
  In x (Array_sort cmp l) <-> In x l.
Proof.
  split; apply Permutation_in;
    [apply Array_sort_perm | symmetry; apply Array_sort_perm].
Qed.

(** A list already in order is returned as it is. *)
Lemma Array_sort_sorted_id (l : list A) :
  Sorted (cmp_le cmp) l -> Array_sort cmp l = l.
Proof.
  induction 1 as [|x r Hs IH Hd]; simpl; [reflexivity|].
  rewrite IH. destruct Hd as [|y r' Hxy]; simpl; [reflexivity|].
  unfold cmp_le in Hxy. apply Z.leb_le in Hxy. now rewrite Hxy.
Qed.

Section Total.
Hypothesis cmp_total : forall x y, 0 < cmp x y -> cmp y x <= 0.

Lemma sort_insert_sorted (x : A) (l : list A) :
  Sorted (cmp_le cmp) l -> Sorted (cmp_le cmp) (sort_insert cmp x l).
Proof.
  induction 1 as [|y r Hs IH Hd]; simpl.
  - repeat constructor.
  - destruct (Z.leb_spec (cmp x y) 0) as [Hle|Hgt].
    + repeat constructor; assumption.
    + constructor; [exact IH|].
      destruct Hd as [|z r' Hyz]; simpl.
      * constructor. now apply cmp_total.
      * destruct (cmp x z <=? 0); constructor;
          [now apply cmp_total | exact Hyz].
Qed.

Lemma Array_sort_sorted (l : list A) : Sorted (cmp_le cmp) (Array_sort cmp l).
Proof.
  induction l as [|x r IH]; simpl; [constructor|].
  now apply sort_insert_sorted.
Qed.

Lemma Array_sort_strongly_sorted (l : list A) :
  (forall x y z, cmp x y <= 0 -> cmp y z <= 0 -> cmp x z <= 0) ->
  StronglySorted (cmp_le cmp) (Array_sort cmp l).
Proof.
  intros Htrans. apply Sorted_StronglySorted.
  - intros x y z. apply Htrans.
  - apply Array_sort_sorted.
Qed.
End Total.
End SortFacts.

(** ** Facts about lists in order *)

Section OrderFacts.
Context {A : Type}.

Lemma Sorted_impl_In (P Q : A -> A -> Prop) (l : list A) :
  (forall x y, In x l -> In y l -> P x y -> Q x y) ->
  Sorted P l -> Sorted Q l.
Proof.
  intros H Hs. induction Hs as [|x r Hs IH Hd]; constructor.
  - apply IH. intros a b Ha Hb. apply H; now right.
  - destruct Hd as [|y r' Hxy]; constructor.
    apply H; simpl; auto.
Qed.

Lemma StronglySorted_snoc (R : A -> A -> Prop) (l : list A) (x : A) :
  StronglySorted R (l ++ [x])
  <-> StronglySorted R l /\ Forall (fun y => R y x) l.
Proof.
  induction l as [|y r IH]; simpl.
  - split; [intros _; split; constructor | intros _; repeat constructor].
  - split.
    + intros H. inversion H as [|? ? Hs Hf]; subst.
      apply IH in Hs. destruct Hs as [Hs Hl].
      rewrite Forall_app in Hf. destruct Hf as [Hf Hx].
      split; constructor; auto. now inversion Hx.
    + intros [H Hl]. inversion H as [|? ? Hs Hf]; subst.
      inversion Hl as [|? ? Hy Hl']; subst.
      constructor; [apply IH; now split|].
      rewrite Forall_app. split; [assumption | now repeat constructor].
Qed.

Lemma flat_map_ext_In {B : Type} (f g : A -> list B) (l : list A) :
  (forall x, In x l -> f x = g x) -> flat_map f l = flat_map g l.
Proof.
  induction l as [|x r IH]; intros H; simpl; [reflexivity|].
  rewrite (H x), IH; simpl; auto. intros y Hy. apply H. now right.
Qed.
End OrderFacts.

(** ** Facts about distinct keys and buckets *)

Lemma existsb_str_eqb (k : jsstring) (s : list jsstring) :
  existsb (str_eqb k) s = true <-> In k s.
Proof.
  rewrite existsb_exists. split.
  - intros [x [Hx E]]. apply str_eqb_eq in E. now subst.
  - intros H. exists k. split; [exact H | apply str_eqb_refl].
Qed.

Lemma Set_add_In (s : list jsstring) (k x : jsstring) :
  In x (Set_add s k) <-> In x s \/ x = k.
Proof.
  unfold Set_add. destruct (existsb (str_eqb k) s) eqn:E.
  - apply existsb_str_eqb in E. split; [tauto|]. intros [H| ->]; assumption.
  - rewrite in_app_iff. simpl. intuition.
Qed.

Lemma Set_add_NoDup (s : list jsstring) (k : jsstring) :
  NoDup s -> NoDup (Set_add s k).
Proof.
  intros H. unfold Set_add. destruct (existsb (str_eqb k) s) eqn:E;
    [exact H|].
  apply NoDup_app; [exact H | repeat constructor; intros [] |].
  intros x Hx [<-|[]].
  apply existsb_str_eqb in Hx. congruence.
Qed.

Lemma fold_Set_add_In (ks acc : list jsstring) (x : jsstring) :
  In x (fold_left Set_add ks acc) <-> In x acc \/ In x ks.
Proof.
  revert acc. induction ks as [|k r IH]; intros acc; simpl; [tauto|].
  rewrite IH, Set_add_In. intuition congruence.
Qed.

Lemma fold_Set_add_NoDup (ks acc : list jsstring) :
  NoDup acc -> NoDup (fold_left Set_add ks acc).
Proof.
  revert acc. induction ks as [|k r IH]; intros acc H; simpl; [exact H|].
  apply IH. now apply Set_add_NoDup.
Qed.

Lemma distinct_In (ks : list jsstring) (x : jsstring) :
  In x (distinct ks) <-> In x ks.
Proof. unfold distinct. rewrite fold_Set_add_In. simpl. tauto. Qed.

Lemma distinct_NoDup (ks : list jsstring) : NoDup (distinct ks).
Proof. apply fold_Set_add_NoDup. constructor. Qed.

Lemma distinct_snoc (ks : list jsstring) (k : jsstring) :
  distinct (ks ++ [k]) = Set_add (distinct ks) k.
Proof. unfold distinct. now rewrite fold_left_app. Qed.

Lemma fold_keys (l : list AppItem) (acc : list jsstring) :
  fold_left (fun set a => Set_add set (categoryKey a)) l acc
  = fold_left Set_add (map categoryKey l) acc.
Proof.
  revert acc. induction l as [|a r IH]; intros acc; simpl;
    [reflexivity | apply IH].
Qed.

Lemma keysOf_In (l : list AppItem) (k : jsstring) :
  In k (keysOf l) <-> exists a, In a l /\ categoryKey a = k.
Proof.
  unfold keysOf. rewrite distinct_In, in_map_iff.
  split; intros [a [H1 H2]]; exists a; tauto.
Qed.

Lemma keysOf_snoc (l : list AppItem) (a : AppItem) :
  keysOf (l ++ [a]) = Set_add (keysOf l) (categoryKey a).
Proof. unfold keysOf. rewrite map_app. apply distinct_snoc. Qed.

Lemma bucket_snoc (l : list AppItem) (a : AppItem) (k : jsstring) :
  bucket (l ++ [a]) k
  = bucket l k ++ (if str_eqb (categoryKey a) k then [a] else []).
Proof. unfold bucket. rewrite filter_app. reflexivity. Qed.

Lemma bucket_In (l : list AppItem) (k : jsstring) (a : AppItem) :
  In a (bucket l k) <-> In a l /\ categoryKey a = k.
Proof. unfold bucket. now rewrite filter_In, str_eqb_eq. Qed.

Lemma bucket_absent (l : list AppItem) (k : jsstring) :
  ~ In k (keysOf l) -> bucket l k = [].
Proof.
  intros Hn. destruct (bucket l k) as [|a r] eqn:E; [reflexivity|].
  exfalso. apply Hn. apply keysOf_In. exists a.
  apply bucket_In. rewrite E. now left.
Qed.

Lemma bucket_present (l : list AppItem) (k : jsstring) :
  In k (keysOf l) -> bucket l k <> [].
Proof.
  intros H. apply keysOf_In in H. destruct H as [a Ha].
  apply bucket_In in Ha. intros E. rewrite E in Ha. exact Ha.
Qed.

Lemma Map_has_buckets (l : list AppItem) (ks : list jsstring) (k : jsstring) :
  Map_has (map (fun k0 => (k0, bucket l k0)) ks) k = existsb (str_eqb k) ks.
Proof.
  unfold Map_has. induction ks as [|k0 r IH]; simpl; [reflexivity|].
  now rewrite IH, (str_eqb_sym k0 k).
Qed.

(** The map the grouping loop builds: one entry per key in order of first
    appearance, holding the records with that key in their order. *)
Lemma group_fold (l : list AppItem) :
  fold_left group_step l [] = map (fun k => (k, bucket l k)) (keysOf l).
Proof.
  induction l as [|a l IH] using rev_ind; [reflexivity|].
  rewrite fold_left_app, IH. cbn [fold_left]. unfold group_step.
  set (k := categoryKey a).
  pose proof (Map_has_buckets l (keysOf l) k) as Hhas.
  rewrite Hhas, keysOf_snoc. fold k. unfold Set_add.
  destruct (existsb (str_eqb k) (keysOf l)) eqn:E; cbn [negb].
  - unfold Map_push. rewrite map_map. apply map_ext. intros k0.
    cbn [fst snd]. rewrite bucket_snoc. fold k. rewrite (str_eqb_sym k k0).
    destruct (str_eqb k0 k); [reflexivity | now rewrite app_nil_r].
  - unfold Map_set. rewrite Hhas. unfold Map_push.
    rewrite map_app, map_map, map_app. cbn [map fst snd].
    rewrite str_eqb_refl. f_equal.
    + apply map_ext_in. intros k0 Hk0. rewrite bucket_snoc. fold k.
      assert (Hne : str_eqb k0 k = false).
      { apply str_eqb_neq. intros ->. apply existsb_str_eqb in Hk0.
        congruence. }
      rewrite (str_eqb_sym k k0), Hne. now rewrite app_nil_r.
    + rewrite bucket_snoc. fold k. rewrite str_eqb_refl.
      rewrite bucket_absent; [reflexivity|].
      intros Hin. apply existsb_str_eqb in Hin. congruence.
Qed.

Lemma Map_get_buckets (l : list AppItem) (ks : list jsstring) (k : jsstring) :
  In k ks ->
  Map_get (map (fun k0 => (k0, bucket l k0)) ks) k = Some (bucket l k).
Proof.
  unfold Map_get. induction ks as [|k0 r IH]; intros H; [destruct H|].
  cbn [map find fst]. destruct (str_eqb k0 k) eqn:E.
  - apply str_eqb_eq in E. now subst.
  - apply IH. destruct H as [->|H]; [|exact H].
    rewrite str_eqb_refl in E. discriminate.
Qed.

Section Grouping.
Context {RT : Runtime}.

(** Grouped, in closed form: the buckets of the distinct keys, the keys
    ordered by the plain comparison. *)
Lemma grouped_buckets (l : list AppItem) :
  grouped l
  = map (fun k => mkGroup k (bucket l k))
        (Array_sort localeCompare (keysOf l)).
Proof.
  unfold grouped. rewrite group_fold. unfold Map_keys.
  rewrite map_map. cbn [fst]. rewrite map_id.
  apply map_ext_in. intros k Hk. apply Array_sort_In in Hk.
  now rewrite Map_get_buckets.
Qed.

Lemma flatten_grouped (l : list AppItem) :
  flatten (grouped l)
  = flat_map (bucket l) (Array_sort localeCompare (keysOf l)).
Proof.
  rewrite grouped_buckets. unfold flatten.
  induction (Array_sort localeCompare (keysOf l)) as [|k r IH]; simpl;
    [reflexivity | now rewrite IH].
Qed.
End Grouping.

Lemma bucket_cons_other (a : AppItem) (l : list AppItem) (k : jsstring) :
  k <> categoryKey a -> bucket (a :: l) k = bucket l k.
Proof.
  intros H. unfold bucket. cbn [filter].
  destruct (str_eqb (categoryKey a) k) eqn:E; [|reflexivity].
  apply str_eqb_eq in E. congruence.
Qed.

Lemma bucket_cons_same (a : AppItem) (l : list AppItem) :
  bucket (a :: l) (categoryKey a) = a :: bucket l (categoryKey a).
Proof. unfold bucket. cbn [filter]. now rewrite str_eqb_refl. Qed.

(** Buckets taken over distinct keys that cover the list hold every record
    once. *)
Lemma buckets_perm (ks : list jsstring) (l : list AppItem) :
  NoDup ks -> (forall a, In a l -> In (categoryKey a) ks) ->
  Permutation (flat_map (bucket l) ks) l.
Proof.
  intros Hnd. induction l as [|a l IH]; intros Hcov.
  - unfold bucket. simpl. clear. induction ks; simpl;
      [reflexivity | exact IHks].
  - destruct (in_split (categoryKey a) ks) as [k1 [k2 E]];
      [apply Hcov; now left|].
    assert (H1 : ~ In (categoryKey a) k1 /\ ~ In (categoryKey a) k2).
    { rewrite E in Hnd. apply NoDup_remove_2 in Hnd.
      rewrite in_app_iff in Hnd. tauto. }
    assert (IH' : Permutation (flat_map (bucket l) ks) l).
    { apply IH. intros b Hb. apply Hcov. now right. }
    rewrite E in *. rewrite flat_map_app in *. cbn [flat_map] in *.
    rewrite bucket_cons_same.
    rewrite (flat_map_ext_In (bucket (a :: l)) (bucket l) k1),
            (flat_map_ext_In (bucket (a :: l)) (bucket l) k2).
    + cbn [app]. apply Permutation_sym.
      apply Permutation_trans
        with (a :: flat_map (bucket l) k1
                ++ bucket l (categoryKey a) ++ flat_map (bucket l) k2).
      * constructor. symmetry. exact IH'.
      * apply Permutation_middle.
    + intros k Hk. apply bucket_cons_other. intros ->. tauto.
    + intros k Hk. apply bucket_cons_other. intros ->. tauto.
Qed.

(** ** The reference collation is a strict total order *)

Ltac split_ltb :=
  repeat match goal with
         | H : context [?x <? ?y] |- _ => destruct (Z.ltb_spec x y)
         | |- context [?x <? ?y] => destruct (Z.ltb_spec x y)
         end.

Lemma compareUnits_refl (a : jsstring) : Ref.compareUnits a a = 0.
Proof.
  induction a as [|x a IH]; simpl; [reflexivity|].
  now rewrite Z.ltb_irrefl.
Qed.

Lemma compareUnits_antisym (a b : jsstring) :
  Ref.compareUnits b a = - Ref.compareUnits a b.
Proof.
  revert b. induction a as [|x a IH]; intros [|y b]; simpl; try reflexivity.
  split_ltb; try lia. apply IH.
Qed.

Lemma compareUnits_eq (a b : jsstring) : Ref.compareUnits a b = 0 -> a = b.
Proof.
  revert b. induction a as [|x a IH]; intros [|y b]; simpl;
    try reflexivity; try discriminate.
  split_ltb; try discriminate. intros E0. f_equal; [lia | now apply IH].
Qed.

Lemma compareUnits_lt_trans (a b c : jsstring) :
  Ref.compareUnits a b < 0 -> Ref.compareUnits b c < 0 ->
  Ref.compareUnits a c < 0.
Proof.
  revert b c. induction a as [|x a IH]; intros [|y b] [|z c]; simpl;
    try lia.
  split_ltb; try lia. apply IH.
Qed.

Lemma swapUnit_involutive (c : Z) : Ref.swapUnit (Ref.swapUnit c) = c.
Proof.
  unfold Ref.swapUnit.
  destruct (Z.leb_spec 65 c), (Z.leb_spec c 90), (Z.leb_spec 97 c),
           (Z.leb_spec c 122); cbn [andb];
    repeat match goal with
           | |- context [?x <=? ?y] => destruct (Z.leb_spec x y); cbn [andb]
           end; lia.
Qed.

Lemma map_swapUnit_inj (a b : jsstring) :
  map Ref.swapUnit a = map Ref.swapUnit b -> a = b.
Proof.
  assert (I : forall s, map Ref.swapUnit (map Ref.swapUnit s) = s).
  { intros s. rewrite map_map. rewrite <- (map_id s) at 2.
    apply map_ext. apply swapUnit_involutive. }
  intros H. apply (f_equal (map Ref.swapUnit)) in H.
  now rewrite !I in H.
Qed.

Lemma collate_refl (a : jsstring) : Ref.collate a a = 0.
Proof. unfold Ref.collate. now rewrite !compareUnits_refl. Qed.

Lemma collate_antisym (a b : jsstring) : Ref.collate b a = - Ref.collate a b.
Proof.
  unfold Ref.collate.
  rewrite (compareUnits_antisym (map Ref.lowerUnit a)),
          (compareUnits_antisym (map Ref.swapUnit a)).
  destruct (Z.eqb_spec (Ref.compareUnits (map Ref.lowerUnit a)
                                         (map Ref.lowerUnit b)) 0) as [E|E].
  - rewrite E. reflexivity.
  - destruct (Z.eqb_spec (- Ref.compareUnits (map Ref.lowerUnit a)
                                             (map Ref.lowerUnit b)) 0);
      [lia | reflexivity].
Qed.

Lemma collate_eq (a b : jsstring) : Ref.collate a b = 0 -> a = b.
Proof.
  unfold Ref.collate.
  destruct (Z.eqb_spec (Ref.compareUnits (map Ref.lowerUnit a)
                                         (map Ref.lowerUnit b)) 0) as [E|E];
    [|congruence].
  intros H. apply compareUnits_eq in H. now apply map_swapUnit_inj.
Qed.

Ltac split_eqb0 :=
  match goal with
  | |- context [?x =? 0] => destruct (Z.eqb_spec x 0)
  end.

Lemma collate_lt_trans (a b c : jsstring) :
  Ref.collate a b < 0 -> Ref.collate b c < 0 -> Ref.collate a c < 0.
Proof.
  unfold Ref.collate.
  destruct (Z.eqb_spec (Ref.compareUnits (map Ref.lowerUnit a)
                                         (map Ref.lowerUnit b)) 0) as [E1|E1];
  destruct (Z.eqb_spec (Ref.compareUnits (map Ref.lowerUnit b)
                                         (map Ref.lowerUnit c)) 0) as [E2|E2].
  - apply compareUnits_eq in E1, E2. rewrite E1, E2, compareUnits_refl.
    cbn. apply compareUnits_lt_trans.
  - apply compareUnits_eq in E1. rewrite E1.
    split_eqb0; [congruence | intros _ H; exact H].
  - apply compareUnits_eq in E2. rewrite <- E2.
    split_eqb0; [congruence | intros H _; exact H].
  - intros H1 H2.
    pose proof (compareUnits_lt_trans _ _ _ H1 H2) as H3.
    split_eqb0; [lia | exact H3].
Qed.

Lemma collate_irrefl (a : jsstring) : ~ Ref.collate a a < 0.
Proof. rewrite collate_refl. lia. Qed.

Lemma collate_total (a b : jsstring) :
  0 < Ref.collate a b -> Ref.collate b a <= 0.
Proof. rewrite (collate_antisym a b). lia. Qed.

Lemma collate_le_trans (a b c : jsstring) :
  Ref.collate a b <= 0 -> Ref.collate b c <= 0 -> Ref.collate a c <= 0.
Proof.
  intros H1 H2.
  destruct (Z.eq_dec (Ref.collate a b) 0) as [E1|N1].
  - apply collate_eq in E1. now subst.
  - destruct (Z.eq_dec (Ref.collate b c) 0) as [E2|N2].
    + apply collate_eq in E2. now subst.
    + assert (Ref.collate a c < 0) by (apply (collate_lt_trans a b c); lia).
      lia.
Qed.

(** ** Grouped and the category options *)

Section Partitions.
Context {RT : Runtime}.

Lemma sorted_keys_NoDup (l : list AppItem) :
  NoDup (Array_sort localeCompare (keysOf l)).
Proof.
  apply (Permutation_NoDup (l := keysOf l)).
  - symmetry. apply Array_sort_perm.
  - apply distinct_NoDup.
Qed.

Lemma sorted_keys_In (l : list AppItem) (k : jsstring) :
  In k (Array_sort localeCompare (keysOf l))
  <-> exists a, In a l /\ categoryKey a = k.
Proof. now rewrite Array_sort_In, keysOf_In. Qed.

Lemma grouped_In (l : list AppItem) (g : Group) :
  In g (grouped l)
  <-> g = mkGroup (key g) (bucket l (key g))
      /\ exists a, In a l /\ categoryKey a = key g.
Proof.
  rewrite grouped_buckets, in_map_iff. split.
  - intros [k [<- Hk]]. cbn [key]. split; [reflexivity|].
    now apply sorted_keys_In.
  - intros [E H]. exists (key g). split; [now rewrite <- E|].
    now apply sorted_keys_In.
Qed.

Lemma grouped_partition (l : list AppItem) :
  Permutation (flatten (grouped l)) l
  /\ NoDup (map key (grouped l))
  /\ (forall g, In g (grouped l) ->
                items g = bucket l (key g) /\ items g <> [])
  /\ (forall a, In a l ->
        exists g, In g (grouped l) /\ key g = categoryKey a
                  /\ In a (items g)
                  /\ forall g', In g' (grouped l) -> In a (items g') ->
                                g' = g).
Proof.
  split; [|split; [|split]].
  - rewrite flatten_grouped. apply buckets_perm.
    + apply sorted_keys_NoDup.
    + intros a Ha. apply sorted_keys_In. now exists a.
  - rewrite grouped_buckets, map_map. cbn [key]. rewrite map_id.
    apply sorted_keys_NoDup.
  - intros g Hg. apply grouped_In in Hg. destruct Hg as [E Hk].
    rewrite E. cbn [items key]. split; [reflexivity|].
    apply bucket_present. now apply keysOf_In.
  - intros a Ha. exists (mkGroup (categoryKey a) (bucket l (categoryKey a))).
    split; [|split; [|split]].
    + apply grouped_In. cbn [key]. split; [reflexivity | now exists a].
    + reflexivity.
    + cbn [items]. now apply bucket_In.
    + intros g' Hg' Hin. apply grouped_In in Hg'. destruct Hg' as [E _].
      rewrite E in Hin. cbn [items] in Hin. apply bucket_In in Hin.
      destruct Hin as [_ Hk]. rewrite E, <- Hk. reflexivity.
Qed.


(** C7, as the code has it: the category options are the sentinel
    followed by the category keys of the whole catalog (the category, or
    the "uncategorized" sentinel when absent; the filters play no part),
    each once, in the order of the plain comparison; the whole list is
    free of duplicates exactly when no record has the text of the sentinel
    as its category key; an empty or missing catalog gives the sentinel
    alone. *)
Theorem categories_options (catalog : list AppItem) :
  (exists options,
      categories (Some catalog) = ALL :: options
      /\ NoDup options
      /\ (forall k, In k options
                    <-> exists a, In a catalog /\ CategoryKey_spec a = k)
      /\ (NoDup (categories (Some catalog))
          <-> ~ exists a, In a catalog /\ CategoryKey_spec a = ALL)
      /\ ((forall x y, 0 < localeCompare x y -> localeCompare y x <= 0) ->
          (forall x y z, localeCompare x y <= 0 -> localeCompare y z <= 0 ->
                         localeCompare x z <= 0) ->
          StronglySorted (fun x y => localeCompare x y <= 0) options)
      /\ (catalog = [] -> options = []))
  /\ categories None = [ALL].
Proof.
  split; [|reflexivity].
  assert (E : categories (Some catalog)
              = ALL :: Array_sort localeCompare (keysOf catalog)).
  { unfold categories. now rewrite fold_keys. }
  assert (M : forall k, In k (Array_sort localeCompare (keysOf catalog))
                        <-> exists a, In a catalog /\ CategoryKey_spec a = k).
  { intros k. rewrite sorted_keys_In. split; intros [a [Ha Hk]]; exists a;
      (split; [exact Ha|]); [rewrite <- categoryKey_spec_eq
                            | rewrite categoryKey_spec_eq]; exact Hk. }
  exists (Array_sort localeCompare (keysOf catalog)).
  split; [exact E | split; [apply sorted_keys_NoDup | split; [exact M|]]].
  split; [|split].
  - rewrite E, NoDup_cons_iff, M. split; [tauto|].
    intros H. split; [exact H | apply sorted_keys_NoDup].
  - intros Ht Htr. now apply Array_sort_strongly_sorted.
  - intros ->. reflexivity.
Qed.
End Partitions.

Lemma categories_options_witness :
  In (JS "포털") (@categories Ref.runtime (Some FALLBACK_APPS))
  /\ In UNCATEGORIZED (@categories Ref.runtime (Some FALLBACK_APPS))
  /\ NoDup (@categories Ref.runtime (Some FALLBACK_APPS))
  /\ StronglySorted (fun x y => Ref.collate x y <= 0)
                    (tl (@categories Ref.runtime (Some FALLBACK_APPS)))
  /\ @categories Ref.runtime (Some []) = [ALL].
Proof.
  destruct (@categories_options Ref.runtime FALLBACK_APPS)
    as [[options [E [_ [Hm [Hall [Hs _]]]]]] _].
  destruct (@categories_options Ref.runtime [])
    as [[none [En [_ [_ [_ [_ He]]]]]] _].
  split; [|split; [|split; [|split]]].
  - rewrite E. right. apply Hm.
    exists (mkAppItem (JS "Studio") (JS "https://studio.huny.dev")
                      (Some (JS "내 웹앱 포털(미리보기)")) (Some (JS "포털"))
                      None).
    split; [simpl; tauto | reflexivity].
  - rewrite E. right. apply Hm.
    exists (mkAppItem (JS "Playground") (JS "https://lab.huny.dev")
                      (Some (JS "각종 실험")) None None).
    split; [simpl; tauto | reflexivity].
  - apply Hall. intros [a [Ha Hk]]. simpl in Ha.
    repeat (destruct Ha as [<-|Ha]; [vm_compute in Hk; discriminate|]).
    exact Ha.
  - rewrite E. cbn [tl].
    apply Hs; [exact collate_total | exact collate_le_trans].
  - rewrite En, (He eq_refl). reflexivity.
Defined.

(** C7 as stated fails: a record whose category is the text of the
    sentinel puts that text among the keys as well, so the options hold it
    twice. *)
Lemma categories_sentinel_twice :
  @categories Ref.runtime (Some sentinel_catalog) = [ALL; JS "문서"; ALL]
  /\ ~ NoDup (@categories Ref.runtime (Some sentinel_catalog)).
Proof.
  assert (E : @categories Ref.runtime (Some sentinel_catalog)
              = [ALL; JS "문서"; ALL]) by reflexivity.
  split; [exact E|]. rewrite E. intros H.
  apply NoDup_cons_iff in H. destruct H as [H _]. apply H.
  right. now left.
Qed.


(** ** Flattening Grouped under the category order *)

Lemma bucket_snoc_other (l : list AppItem) (a : AppItem) (k : jsstring) :
  k <> categoryKey a -> bucket (l ++ [a]) k = bucket l k.
Proof.
  intros H. rewrite bucket_snoc.
  destruct (str_eqb (categoryKey a) k) eqn:E; [|apply app_nil_r].
  apply str_eqb_eq in E. congruence.
Qed.

Lemma bucket_snoc_same (l : list AppItem) (a : AppItem) :
  bucket (l ++ [a]) (categoryKey a) = bucket l (categoryKey a) ++ [a].
Proof. now rewrite bucket_snoc, str_eqb_refl. Qed.

Lemma StronglySorted_app_r {A : Type} (R : A -> A -> Prop) (l1 l2 : list A) :
  StronglySorted R (l1 ++ l2) -> StronglySorted R l2.
Proof.
  induction l1 as [|x l1 IH]; simpl; [auto|].
  intros H. apply IH. now inversion H.
Qed.

Section FlattenSorted.
Context {RT : Runtime}.

Lemma keys_agreeb_true (catalog : list AppItem) :
  keys_agreeb catalog = true -> keys_agree catalog.
Proof.
  unfold keys_agreeb, keys_agree. rewrite forallb_forall.
  intros H a b Ha Hb. specialize (H a Ha). rewrite forallb_forall in H.
  specialize (H b Hb). cbv zeta in *.
  destruct (str_eqb (toLowerCase (categoryKey a))
                    (toLowerCase (categoryKey b))) eqn:E.
  - apply str_eqb_eq in H. apply str_eqb_eq in E. split; [auto | tauto].
  - apply str_eqb_neq in E. split; [tauto|]. intros _ Hle.
    apply Z.leb_le in Hle. rewrite Hle in H. cbn [implb] in H.
    now apply Z.ltb_lt in H.
Qed.

Hypothesis plain_trans :
  forall x y z, key_lt x y -> key_lt y z -> key_lt x z.
Hypothesis plain_irrefl : forall x, ~ key_lt x x.

Lemma key_before_trans (a b c : AppItem) :
  key_before a b -> key_before b c -> key_before a c.
Proof.
  unfold key_before. intros [E1|L1] [E2|L2].
  - left. congruence.
  - right. now rewrite E1.
  - right. now rewrite <- E2.
  - right. now apply (plain_trans _ (categoryKey b)).
Qed.

(** In a list whose records come partition after partition, the keys
    appear in strictly increasing order and the buckets, taken in that
    order, give the list back. *)
Lemma blocks_in_order (l : list AppItem) :
  StronglySorted key_before l ->
  StronglySorted key_lt (keysOf l) /\ flat_map (bucket l) (keysOf l) = l.
Proof.
  induction l as [|a l IH] using rev_ind; intros H.
  - split; [constructor | reflexivity].
  - apply StronglySorted_snoc in H. destruct H as [Hs Hf].
    destruct (IH Hs) as [K F]. clear IH.
    assert (Hk : forall k, In k (keysOf l) ->
                           k = categoryKey a \/ key_lt k (categoryKey a)).
    { intros k Hk. apply keysOf_In in Hk. destruct Hk as [b [Hb <-]].
      rewrite Forall_forall in Hf. exact (Hf b Hb). }
    rewrite keysOf_snoc. unfold Set_add.
    destruct (existsb (str_eqb (categoryKey a)) (keysOf l)) eqn:E.
    + split; [exact K|].
      apply existsb_str_eqb in E.
      destruct (in_split _ _ E) as [k1 [k2 Ek]].
      assert (E2 : k2 = []).
      { destruct k2 as [|k k2]; [reflexivity | exfalso].
        rewrite Ek in K. apply StronglySorted_app_r in K.
        inversion K as [|? ? _ Hgt]; subst.
        inversion Hgt as [|? ? Hlt _]; subst.
        destruct (Hk k) as [->|Hlt'].
        - rewrite Ek, in_app_iff. right. right. now left.
        - exact (plain_irrefl _ Hlt).
        - exact (plain_irrefl _ (plain_trans _ _ _ Hlt Hlt')). }
      subst k2.
      assert (N1 : ~ In (categoryKey a) k1).
      { pose proof (distinct_NoDup (map categoryKey l)) as Hnd.
        fold (keysOf l) in Hnd. rewrite Ek in Hnd.
        apply NoDup_remove_2 in Hnd. rewrite app_nil_r in Hnd. exact Hnd. }
      rewrite Ek in F |- *. rewrite flat_map_app in F |- *.
      cbn [flat_map] in F |- *. rewrite app_nil_r in F |- *.
      rewrite bucket_snoc_same, app_assoc.
      rewrite (flat_map_ext_In (bucket (l ++ [a])) (bucket l) k1).
      * now rewrite F.
      * intros k Hin. apply bucket_snoc_other. intros ->. tauto.
    + assert (N : ~ In (categoryKey a) (keysOf l)).
      { intros Hin. apply existsb_str_eqb in Hin. congruence. }
      split.
      * apply StronglySorted_snoc. split; [exact K|].
        apply Forall_forall. intros k Hin.
        destruct (Hk k Hin) as [->|Hlt]; [tauto | exact Hlt].
      * rewrite flat_map_app. cbn [flat_map]. rewrite app_nil_r.
        rewrite bucket_snoc_same, (bucket_absent l _ N). cbn [app].
        rewrite (flat_map_ext_In (bucket (l ++ [a])) (bucket l)).
        -- now rewrite F.
        -- intros k Hin. apply bucket_snoc_other. intros ->. tauto.
Qed.

Lemma flatten_grouped_blocks (l : list AppItem) :
  StronglySorted key_before l -> flatten (grouped l) = l.
Proof.
  intros H. destruct (blocks_in_order l H) as [K F].
  rewrite flatten_grouped, Array_sort_sorted_id; [exact F|].
  apply StronglySorted_Sorted in K.
  apply (Sorted_impl_In key_lt); [|exact K].
  unfold key_lt, cmp_le. intros; lia.
Qed.

Hypothesis numeric_total :
  forall x y, 0 < localeCompareNumeric x y -> localeCompareNumeric y x <= 0.

Lemma compareCategory_total (a b : AppItem) :
  0 < compareCategory a b -> compareCategory b a <= 0.
Proof.
  unfold compareCategory.
  rewrite (str_eqb_sym (toLowerCase (categoryKey b))).
  destruct (str_eqb (toLowerCase (categoryKey a))
                    (toLowerCase (categoryKey b))); cbn [negb];
    apply numeric_total.
Qed.

Lemma compareCategory_key_before (catalog : list AppItem) (a b : AppItem) :
  keys_agree catalog -> In a catalog -> In b catalog ->
  compareCategory a b <= 0 -> key_before a b.
Proof.
  intros Hag Ha Hb. destruct (Hag a b Ha Hb) as [H1 H2].
  unfold compareCategory, key_before.
  destruct (str_eqb (toLowerCase (categoryKey a))
                    (toLowerCase (categoryKey b))) eqn:E; cbn [negb].
  - apply str_eqb_eq in E. intros _. left. now apply H1.
  - apply str_eqb_neq in E. intros Hle. right. now apply H2.
Qed.

(** Any arrangement of records of the catalog that is in the order of the
    category comparison comes partition after partition, so flattening
    its groups gives it back. *)
Lemma flatten_grouped_of_sorted (catalog l : list AppItem) :
  keys_agree catalog ->
  (forall a, In a l -> In a catalog) ->
  Sorted (cmp_le compareCategory) l ->
  flatten (grouped l) = l.
Proof.
  intros Hag Hin Hs. apply flatten_grouped_blocks.
  apply Sorted_StronglySorted; [exact key_before_trans|].
  apply (Sorted_impl_In (cmp_le compareCategory)); [|exact Hs].
  intros a b Ha Hb.
  apply (compareCategory_key_before catalog a b Hag); auto.
Qed.

(** C1, as the code has it: under the "category→name" mode flattening
    Grouped gives exactly Sorted, record for record, for every catalog
    on which the case-folded numeric-aware order of the keys agrees with
    the plain order of the raw keys by which the partitions are put in
    order. *)
Theorem flatten_grouped_category_sorted
        (catalog : list AppItem) (query cf : jsstring) :
  keys_agree catalog ->
  flatten (grouped (normalized (Some catalog) query SortCategory cf))
  = normalized (Some catalog) query SortCategory cf.
Proof.
  intros Hag. apply (flatten_grouped_of_sorted catalog _ Hag).
  - cbn [normalized]. intros a Ha. apply Array_sort_In in Ha.
    unfold filtered in Ha. now apply filter_In in Ha.
  - cbn [normalized]. apply Array_sort_sorted. exact compareCategory_total.
Qed.
End FlattenSorted.

Lemma flatten_grouped_category_sorted_witness :
  flatten (@grouped Ref.runtime
             (@normalized Ref.runtime (Some FALLBACK_APPS) []
                          SortCategory ALL))
  = @normalized Ref.runtime (Some FALLBACK_APPS) [] SortCategory ALL.
Proof.
  apply (@flatten_grouped_category_sorted Ref.runtime).
  - intros x y z. apply collate_lt_trans.
  - intros x. apply collate_irrefl.
  - intros x y. apply collate_total.
  - apply keys_agreeb_true. vm_compute. reflexivity.
Defined.

(** C1 as stated fails: the sort folds case, so the three records tie on
    the category and come out by name as X, Y, Z; the grouping keeps "AI"
    and "ai" apart, so flattening gives Y, X, Z. *)
Lemma flatten_grouped_category_not_sorted :
  map title (@normalized Ref.runtime (Some case_catalog) [] SortCategory ALL)
  = [JS "X"; JS "Y"; JS "Z"]
  /\ map title
       (flatten (@grouped Ref.runtime
                   (@normalized Ref.runtime (Some case_catalog) []
                                SortCategory ALL)))
     = [JS "Y"; JS "X"; JS "Z"]
  /\ flatten (@grouped Ref.runtime
                (@normalized Ref.runtime (Some case_catalog) []
                             SortCategory ALL))
     <> @normalized Ref.runtime (Some case_catalog) [] SortCategory ALL.
Proof.
  split; [reflexivity | split; [reflexivity|]].
  vm_compute. discriminate.
Qed.

(** The failure does not hang on the reference collation: on any engine
    that folds "AI" and "ai" to one string and compares a string as equal
    to itself, records that tie in the sort keep their catalog order, and
    the grouping pulls them apart whichever way it orders the two keys. *)
Section CaseSplit.
Context {RT : Runtime}.
Hypothesis lower_empty : toLowerCase [] = [].
Hypothesis fold_AI : toLowerCase (JS "AI") = toLowerCase (JS "ai").
Hypothesis numeric_refl : forall s, localeCompareNumeric s s = 0.

Lemma tie_catalog_sorted :
  normalized (Some tie_catalog) [] SortCategory ALL = tie_catalog.
Proof.
  assert (F : filtered (Some tie_catalog) [] ALL = tie_catalog).
  { unfold filtered, passes. change (trim []) with (@nil Z).
    rewrite lower_empty. cbn [truthy]. rewrite str_eqb_refl. reflexivity. }
  cbn [normalized]. rewrite F.
  assert (C : forall a b, In a tie_catalog -> In b tie_catalog ->
                          compareCategory a b = 0).
  { intros a b Ha Hb. unfold compareCategory.
    assert (K : forall c, In c tie_catalog ->
                toLowerCase (categoryKey c) = toLowerCase (JS "ai")
                /\ url c = JS "https://a.huny.dev").
    { intros c [<-|[<-|[<-|[]]]]; split; try reflexivity; exact fold_AI. }
    destruct (K a Ha) as [-> ->]. destruct (K b Hb) as [-> ->].
    rewrite str_eqb_refl. apply numeric_refl. }
  pose proof (fun a b => C a b) as C'.
  unfold tie_catalog in C' |- *. cbn [Array_sort sort_insert].
  rewrite (C' _ _) by (simpl; auto 10). cbn [Z.leb Z.compare sort_insert].
  rewrite (C' _ _) by (simpl; auto 10). reflexivity.
Qed.

Lemma tie_catalog_not_flat :
  flatten (grouped (normalized (Some tie_catalog) [] SortCategory ALL))
  <> normalized (Some tie_catalog) [] SortCategory ALL.
Proof.
  rewrite tie_catalog_sorted, flatten_grouped.
  change (keysOf tie_catalog) with [JS "AI"; JS "ai"].
  cbn [Array_sort sort_insert].
  destruct (localeCompare (JS "AI") (JS "ai") <=? 0); vm_compute; discriminate.
Qed.
End CaseSplit.

(** ** The literals as code units *)

Example utf16_UNCATEGORIZED :
  UNCATEGORIZED = [0xADF8; 0xB8F9; 0xC5C6; 0xC74C].
Proof. reflexivity. Qed.

Example utf16_ALL : ALL = [0xC804; 0xCCB4].
Proof. reflexivity. Qed.

(** * Further properties of the code *)

(** ** Sorting keeps the records and the order of ties *)

Section SortStable.
Context {A : Type} (cmp : A -> A -> Z).
Hypothesis cmp_trans :
  forall x y z, cmp x y <= 0 -> cmp y z <= 0 -> cmp x z <= 0.

Lemma sort_insert_tied (x z : A) (l : list A) :
  filter (tied cmp x) (sort_insert cmp z l) = filter (tied cmp x) (z :: l).
Proof.
  induction l as [|y r IH]; [reflexivity|].
  cbn [sort_insert]. destruct (Z.leb_spec (cmp z y) 0) as [Hle|Hgt];
    [reflexivity|].
  cbn [filter] in IH |- *. rewrite IH.
  destruct (tied cmp x y) eqn:Ey; destruct (tied cmp x z) eqn:Ez;
    try reflexivity.
  exfalso. unfold tied in Ey, Ez.
  apply andb_true_iff in Ey, Ez. destruct Ey as [Hxy _], Ez as [_ Hzx].
  apply Z.leb_le in Hxy, Hzx. pose proof (cmp_trans z x y Hzx Hxy). lia.
Qed.

Lemma Array_sort_tied (x : A) (l : list A) :
  filter (tied cmp x) (Array_sort cmp l) = filter (tied cmp x) l.
Proof.
  induction l as [|z r IH]; [reflexivity|].
  cbn [Array_sort]. rewrite sort_insert_tied. cbn [filter]. now rewrite IH.
Qed.
End SortStable.

Lemma filter_all {A : Type} (p : A -> bool) (l : list A) :
  (forall x, In x l -> p x = true) -> filter p l = l.
Proof.
  induction l as [|x r IH]; intros H; [reflexivity|].
  cbn [filter]. rewrite (H x) by now left.
  f_equal. apply IH. intros y Hy. apply H. now right.
Qed.

Section SortedSequence.
Context {RT : Runtime}.

Lemma normalized_perm_filtered
      (apps_ : option (list AppItem)) (query cf : jsstring) (sort : SortMode) :
  Permutation (normalized apps_ query sort cf) (filtered apps_ query cf).
Proof. destruct sort; cbn [normalized]; apply Array_sort_perm. Qed.

(** X1: in either sort mode the sorted sequence is a rearrangement of the
    filtered one: sorting adds no record, drops none and repeats none. *)
Theorem normalized_rearranges_filtered
        (apps_ : option (list AppItem)) (query cf : jsstring)
        (sort : SortMode) :
  Permutation (normalized apps_ query sort cf) (filtered apps_ query cf)
  /\ length (normalized apps_ query sort cf)
     = length (filtered apps_ query cf).
Proof.
  split; [|apply Permutation_length]; apply normalized_perm_filtered.
Qed.

Lemma filtered_everything (catalog : list AppItem) (query : jsstring) :
  toLowerCase [] = [] -> trim query = [] ->
  filtered (Some catalog) query ALL = catalog.
Proof.
  intros Hl Hq. unfold filtered. rewrite Hq, Hl.
  apply filter_all. intros a _. unfold passes. cbn [truthy].
  now rewrite str_eqb_refl.
Qed.

(** X2: with a query that is empty or white space only and the category
    filter that lets everything through, the sorted sequence is a
    rearrangement of the whole catalog. *)
Theorem normalized_of_whole_catalog
        (catalog : list AppItem) (query : jsstring) (sort : SortMode) :
  toLowerCase [] = [] -> trim query = [] ->
  Permutation (normalized (Some catalog) query sort ALL) catalog.
Proof.
  intros Hl Hq. rewrite <- (filtered_everything catalog query Hl Hq) at 2.
  apply normalized_perm_filtered.
Qed.

Lemma compareName_total :
  (forall x y, 0 < localeCompareNumeric x y -> localeCompareNumeric y x <= 0) ->
  forall a b, 0 < compareName a b -> compareName b a <= 0.
Proof. intros H a b. unfold compareName. apply H. Qed.

Lemma compareCategory_total_of :
  (forall x y, 0 < localeCompareNumeric x y -> localeCompareNumeric y x <= 0) ->
  forall a b, 0 < compareCategory a b -> compareCategory b a <= 0.
Proof.
  intros H a b. unfold compareCategory.
  rewrite (str_eqb_sym (toLowerCase (categoryKey b))).
  destruct (str_eqb (toLowerCase (categoryKey a))
                    (toLowerCase (categoryKey b))); cbn [negb]; apply H.
Qed.

(** X3: when the numeric-aware comparison is total, each record of the
    sorted sequence is followed by one the mode's comparator does not put
    before it; when the comparison is also transitive, under the "name"
    mode no record comes before one with a smaller sort key. *)
Theorem normalized_in_order
        (apps_ : option (list AppItem)) (query cf : jsstring) :
  (forall x y, 0 < localeCompareNumeric x y -> localeCompareNumeric y x <= 0) ->
  Sorted (cmp_le compareName) (normalized apps_ query SortName cf)
  /\ Sorted (cmp_le compareCategory) (normalized apps_ query SortCategory cf)
  /\ ((forall x y z, localeCompareNumeric x y <= 0 ->
                     localeCompareNumeric y z <= 0 ->
                     localeCompareNumeric x z <= 0) ->
      StronglySorted (cmp_le compareName)
                     (normalized apps_ query SortName cf)).
Proof.
  intros Ht. split; [|split].
  - cbn [normalized]. apply Array_sort_sorted. now apply compareName_total.
  - cbn [normalized]. apply Array_sort_sorted.
    now apply compareCategory_total_of.
  - intros Htr. cbn [normalized]. apply Array_sort_strongly_sorted.
    + now apply compareName_total.
    + intros x y z. unfold compareName. apply Htr.
Qed.

(** X4: under the "name" mode records that tie on the sort key keep the
    order they have in the catalog, provided the numeric-aware comparison
    is transitive. *)
Theorem normalized_name_stable
        (apps_ : option (list AppItem)) (query cf : jsstring) (x : AppItem) :
  (forall x y z, localeCompareNumeric x y <= 0 ->
                 localeCompareNumeric y z <= 0 ->
                 localeCompareNumeric x z <= 0) ->
  filter (tied compareName x) (normalized apps_ query SortName cf)
  = filter (tied compareName x) (filtered apps_ query cf).
Proof.
  intros Htr. cbn [normalized]. apply Array_sort_tied.
  intros a b c. unfold compareName. apply Htr.
Qed.

(** X5: an option of the category select other than the sentinel, chosen
    with an empty query, shows at least one record, and shows exactly the
    records of the catalog whose category key equals it up to case. *)
Theorem category_option_selects
        (catalog : list AppItem) (query c : jsstring) (sort : SortMode) :
  toLowerCase [] = [] -> trim query = [] ->
  In c (categories (Some catalog)) -> c <> ALL ->
  (exists a, In a (normalized (Some catalog) query sort c))
  /\ (forall a, In a (normalized (Some catalog) query sort c)
                <-> In a catalog
                    /\ toLowerCase (categoryKey a) = toLowerCase c).
Proof.
  intros Hl Hq Hc Hne.
  assert (M : forall a, In a (normalized (Some catalog) query sort c)
                        <-> In a catalog
                            /\ toLowerCase (categoryKey a) = toLowerCase c).
  { intros a. split.
    - intros H. apply (Permutation_in _ (normalized_perm_filtered _ _ _ _)) in H.
      unfold filtered in H. apply filter_In in H. destruct H as [Ha Hp].
      split; [exact Ha|]. unfold passes in Hp.
      apply andb_true_iff in Hp. destruct Hp as [_ Hp].
      destruct (str_eqb c ALL) eqn:E; [apply str_eqb_eq in E; congruence|].
      now apply str_eqb_eq in Hp.
    - intros [Ha Hk].
      apply (Permutation_in _ (Permutation_sym
                                 (normalized_perm_filtered _ _ _ _))).
      unfold filtered. apply filter_In. split; [exact Ha|].
      unfold passes. rewrite Hq, Hl. cbn [truthy andb].
      destruct (str_eqb c ALL); [reflexivity | now apply str_eqb_eq]. }
  split; [|exact M].
  unfold categories in Hc. rewrite fold_keys in Hc.
  destruct Hc as [Hc|Hc]; [congruence|].
  apply Array_sort_In in Hc. fold (distinct (map categoryKey catalog)) in Hc.
  fold (keysOf catalog) in Hc. apply keysOf_In in Hc.
  destruct Hc as [a [Ha Hk]]. exists a. apply M. split; [exact Ha|].
  now rewrite Hk.
Qed.

(** X6: each partition of Grouped holds exactly the records of the grouped
    sequence that carry its key, in the order they have there, and holds at
    least one; Grouped has no partition exactly when the sequence is
    empty. *)
Theorem grouped_partitions_in_order (l : list AppItem) :
  (forall g, In g (grouped l) ->
             items g = filter (fun a => str_eqb (categoryKey a) (key g)) l
             /\ items g <> [])
  /\ (grouped l = [] <-> l = []).
Proof.
  split.
  - intros g Hg. apply grouped_In in Hg. destruct Hg as [E Hk].
    rewrite E. cbn [items key]. split; [reflexivity|].
    apply bucket_present. now apply keysOf_In.
  - split.
    + intros E. destruct l as [|a r]; [reflexivity | exfalso].
      assert (H : In (mkGroup (categoryKey a)
                              (bucket (a :: r) (categoryKey a)))
                     (grouped (a :: r))).
      { apply grouped_In. cbn [key]. split; [reflexivity|].
        exists a. split; [now left | reflexivity]. }
      rewrite E in H. exact H.
    + intros ->. reflexivity.
Qed.

(** X7: the partitions of Grouped come in the order of the plain
    comparison of their keys: when that comparison is total each key is
    followed by one it is not after, and when it is also transitive no key
    comes before a smaller one. *)
Theorem grouped_keys_in_order (l : list AppItem) :
  (forall x y, 0 < localeCompare x y -> localeCompare y x <= 0) ->
  Sorted (cmp_le localeCompare) (map key (grouped l))
  /\ ((forall x y z, localeCompare x y <= 0 -> localeCompare y z <= 0 ->
                     localeCompare x z <= 0) ->
      StronglySorted (cmp_le localeCompare) (map key (grouped l))).
Proof.
  intros Ht.
  assert (E : map key (grouped l) = Array_sort localeCompare (keysOf l)).
  { rewrite grouped_buckets, map_map. cbn [key]. apply map_id. }
  rewrite E. split.
  - now apply Array_sort_sorted.
  - intros Htr. now apply Array_sort_strongly_sorted.
Qed.
End SortedSequence.

Lemma normalized_of_whole_catalog_witness :
  Permutation (@normalized Ref.runtime (Some FALLBACK_APPS) (JS "  ")
                           SortCategory ALL)
              FALLBACK_APPS.
Proof.
  apply (@normalized_of_whole_catalog Ref.runtime); reflexivity.
Defined.

Lemma normalized_in_order_witness :
  Sorted (cmp_le (@compareName Ref.runtime))
         (@normalized Ref.runtime (Some FALLBACK_APPS) [] SortName ALL)
  /\ StronglySorted (cmp_le (@compareName Ref.runtime))
       (@normalized Ref.runtime (Some FALLBACK_APPS) [] SortName ALL).
Proof.
  destruct (@normalized_in_order Ref.runtime (Some FALLBACK_APPS) [] ALL
              collate_total) as [Hs [_ Hss]].
  split; [exact Hs | apply Hss; exact collate_le_trans].
Defined.

Lemma normalized_name_stable_witness :
  filter (tied (@compareName Ref.runtime)
               (mkAppItem (JS "Y") (JS "https://a.huny.dev") None
                          (Some (JS "ai")) None))
         (@normalized Ref.runtime (Some tie_catalog) [] SortName ALL)
  = tie_catalog.
Proof.
  rewrite (@normalized_name_stable Ref.runtime (Some tie_catalog) [] ALL _
             collate_le_trans).
  reflexivity.
Defined.

Lemma category_option_selects_in_fallback :
  In UNCATEGORIZED (@categories Ref.runtime (Some FALLBACK_APPS)).
Proof. vm_compute. tauto. Qed.

Lemma category_option_selects_witness :
  exists a, In a (@normalized Ref.runtime (Some FALLBACK_APPS) [] SortName
                              UNCATEGORIZED).
Proof.
  destruct (@category_option_selects Ref.runtime FALLBACK_APPS []
              UNCATEGORIZED SortName eq_refl eq_refl
              category_option_selects_in_fallback) as [H _].
  - discriminate.
  - exact H.
Defined.

Lemma grouped_partitions_in_order_witness :
  items (mkGroup (JS "ai")
           [mkAppItem (JS "Y") (JS "https://b.huny.dev") None
                      (Some (JS "ai")) None])
  = filter (fun a => str_eqb (categoryKey a) (JS "ai")) case_catalog.
Proof.
  destruct (@grouped_partitions_in_order Ref.runtime case_catalog) as [H _].
  apply (H (mkGroup (JS "ai")
              [mkAppItem (JS "Y") (JS "https://b.huny.dev") None
                         (Some (JS "ai")) None])).
  vm_compute. tauto.
Defined.

Lemma grouped_keys_in_order_witness :
  StronglySorted (cmp_le Ref.collate)
                 (map key (@grouped Ref.runtime FALLBACK_APPS)).
Proof.
  destruct (@grouped_keys_in_order Ref.runtime FALLBACK_APPS collate_total)
    as [_ H].
  apply H. exact collate_le_trans.
Defined.

(** ** More on SortKey, Initials and the hash *)

Section SortKeyShape.
Context {RT : Runtime}.

(** X8: SortKey is always a leading part of Hostname: either all of it, or
    a dot-free label that a dot follows in the host. *)
Theorem getSubdomainForSort_leads_host (u : jsstring) :
  exists rest,
    getHostname u = getSubdomainForSort u ++ rest
    /\ (rest = []
        \/ (exists r, rest = DOT :: r)
           /\ ~ In DOT (getSubdomainForSort u)).
Proof.
  unfold getSubdomainForSort. set (host := getHostname u).
  destruct (endsWith host (JS "huny.dev"));
    [|exists []; split; [now rewrite app_nil_r | now left]].
  destruct (3 <=? length (split_dot host))%nat eqn:El;
    [|exists []; split; [now rewrite app_nil_r | now left]].
  apply Nat.leb_le in El.
  pose proof (split_dot_join host) as Hj.
  pose proof (split_dot_free host) as Hf.
  destruct (split_dot host) as [|p0 [|p1 ps]]; cbn [length] in El; try lia.
  cbn [nth]. rewrite join_cons in Hj by discriminate.
  exists ([DOT] ++ join [DOT] (p1 :: ps)). split; [now rewrite Hj|].
  right. split; [now eexists | now inversion Hf].
Qed.
End SortKeyShape.

Lemma split_go_sep_free (cur s : jsstring) :
  Forall (fun c => isSeparator c = false) cur ->
  Forall (Forall (fun c => isSeparator c = false))
         (split_go isSeparator cur s).
Proof.
  revert cur. induction s as [|c r IH]; intros cur Hc; cbn [split_go].
  - now constructor.
  - destruct (isSeparator c) eqn:E.
    + constructor; [exact Hc | apply IH; constructor].
    + apply IH. apply Forall_app. split; [exact Hc | now repeat constructor].
Qed.

(** Every token holds at least one unit and no separator. *)
Lemma tokens_shape (t : jsstring) :
  Forall (fun p => p <> [] /\ Forall (fun c => isSeparator c = false) p)
         (tokens t).
Proof.
  unfold tokens, split_on.
  pose proof (split_go_sep_free [] t (Forall_nil _)) as H.
  induction H as [|p ps Hp _ IH]; cbn [filter]; [constructor|].
  destruct (truthy p) eqn:E; [|exact IH].
  constructor; [|exact IH]. split; [now apply truthy_nonempty | exact Hp].
Qed.

Lemma firstUnit_shape (parts : list jsstring) (i : nat) :
  Forall (fun p => p <> [] /\ Forall (fun c => isSeparator c = false) p)
         parts ->
  Forall (fun c => isSeparator c = false) (firstUnit parts i)
  /\ length (firstUnit parts i) = (if (i <? length parts)%nat then 1 else 0)%nat.
Proof.
  intros H. unfold firstUnit.
  destruct (nth_error parts i) as [p|] eqn:E.
  - assert (Hi : (i < length parts)%nat)
      by (apply nth_error_Some; congruence).
    apply Nat.ltb_lt in Hi. rewrite Hi.
    apply nth_error_In in E. rewrite Forall_forall in H.
    destruct (H p E) as [Hne Hs]. destruct p as [|c p]; [congruence|].
    split; [|reflexivity]. inversion Hs; subst. now repeat constructor.
  - apply nth_error_None in E. apply Nat.ltb_ge in E. rewrite E.
    split; [constructor | reflexivity].
Qed.

Section InitialsShape.
Context {RT : Runtime}.

(** X9: when something is left after trimming, Initials is the upper-cased
    form of a string of at most two units, one for each of the first two
    tokens there are, and none of them is a separator. *)
Theorem initialsFrom_at_most_two (text : jsstring) :
  trim text <> [] ->
  exists w,
    initialsFrom text = toUpperCase w
    /\ length w = Nat.min 2 (length (tokens (trim text)))
    /\ Forall (fun c => isSeparator c = false) w.
Proof.
  intros Hne. rewrite initialsFrom_refines. unfold Initials_spec.
  destruct (trim text) as [|c t] eqn:E; [congruence|].
  set (ts := tokens (c :: t)).
  destruct (firstUnit_shape ts 0 (tokens_shape _)) as [F0 L0].
  destruct (firstUnit_shape ts 1 (tokens_shape _)) as [F1 L1].
  exists (firstUnit ts 0 ++ firstUnit ts 1). split; [reflexivity|].
  split.
  - rewrite length_app, L0, L1.
    destruct ts as [|a [|b r]]; reflexivity.
  - apply Forall_app. now split.
Qed.
End InitialsShape.

Lemma initialsFrom_at_most_two_witness :
  exists w,
    @initialsFrom Ref.runtime (JS " tts-lab.huny ") = @toUpperCase Ref.runtime w
    /\ length w = 2%nat.
Proof.
  destruct (@initialsFrom_at_most_two Ref.runtime (JS " tts-lab.huny "))
    as [w [E [L _]]].
  - discriminate.
  - exists w. split; [exact E | exact L].
Defined.

Lemma hashToHsl_hash32 (seed : jsstring) :
  hashToHsl seed = mkHsl (hash32 seed mod 360) 65 50.
Proof.
  unfold hashToHsl. rewrite fold_hash_eq. fold (hash32 seed).
  pose proof (hash32_range seed). now rewrite Z.rem_mod_nonneg by lia.
Qed.

Lemma fold_hash_from (t : jsstring) (h0 : Z) :
  0 <= h0 < 2 ^ 32 ->
  fold_left (fun hash charCode => (hash * 31 + charCode) mod 2 ^ 32) t h0
  = (h0 * 31 ^ Z.of_nat (length t) + hash32 t) mod 2 ^ 32.
Proof.
  unfold hash32. revert h0. induction t as [|c r IH]; intros h0 Hr.
  - cbn [fold_left length]. change (31 ^ Z.of_nat 0) with 1.
    rewrite Z.mul_1_r, Z.add_0_r. symmetry. now apply Z.mod_small.
  - cbn [fold_left length].
    rewrite (IH ((h0 * 31 + c) mod 2 ^ 32))
      by (apply Z.mod_pos_bound; lia).
    rewrite (IH ((0 * 31 + c) mod 2 ^ 32))
      by (apply Z.mod_pos_bound; lia).
    rewrite Nat2Z.inj_succ, Z.pow_succ_r by lia.
    set (P := 31 ^ Z.of_nat (length r)).
    set (H := fold_left _ r 0).
    rewrite (Z.mod_eq (h0 * 31 + c)), (Z.mod_eq (0 * 31 + c)) by lia.
    rewrite (Z.mod_eq ((0 * 31 + c - _) * P + H)) by lia.
    set (q1 := (h0 * 31 + c) / 2 ^ 32).
    set (q2 := (0 * 31 + c) / 2 ^ 32).
    set (q3 := ((0 * 31 + c - 2 ^ 32 * q2) * P + H) / 2 ^ 32).
    replace ((h0 * 31 + c - 2 ^ 32 * q1) * P + H)
      with (h0 * 31 * P + c * P + H + (- q1 * P) * 2 ^ 32) by ring.
    replace (h0 * (31 * P)
             + ((0 * 31 + c - 2 ^ 32 * q2) * P + H - 2 ^ 32 * q3))
      with (h0 * 31 * P + c * P + H + (- q2 * P - q3) * 2 ^ 32) by ring.
    now rewrite !Z_mod_plus_full.
Qed.

(** X10: the hash of a concatenation follows from the hashes of the two
    parts and the length of the second: it is hash(s) * 31^|t| + hash(t)
    reduced mod 2^32, and the hue is that value mod 360. *)
Theorem hashToHsl_of_concatenation (s t : jsstring) :
  hash32 (s ++ t)
  = (hash32 s * 31 ^ Z.of_nat (length t) + hash32 t) mod 2 ^ 32
  /\ hsl_h (hashToHsl (s ++ t))
     = ((hash32 s * 31 ^ Z.of_nat (length t) + hash32 t) mod 2 ^ 32) mod 360.
Proof.
  assert (E : hash32 (s ++ t)
              = (hash32 s * 31 ^ Z.of_nat (length t) + hash32 t) mod 2 ^ 32).
  { unfold hash32 at 1. rewrite fold_left_app. fold (hash32 s).
    apply fold_hash_from. apply hash32_range. }
  split; [exact E|]. rewrite hashToHsl_hash32. cbn [hsl_h]. now rewrite E.
Qed.

(** ** The loader after teardown *)

(** X11: a request that ends after the clean-up has run leaves the catalog
    as it was and shows no advisory; one that ends while the consumer is
    alive sets the whole state from the outcome alone, whatever the state
    held before. *)
Theorem load_after_teardown (r : FetchOutcome) (st st' : LoadState) :
  apps (load true r st) = apps st
  /\ loadError (load true r st) = None
  /\ load false r st = load false r st'.
Proof.
  rewrite load_cancelled. cbn [apps loadError].
  split; [reflexivity | split; [reflexivity|]].
  unfold load. destruct (load_try r); reflexivity.
Qed.

(** ** Persisted state *)

Lemma find_app {A : Type} (p : A -> bool) (l1 l2 : list A) :
  find p (l1 ++ l2)
  = match find p l1 with Some x => Some x | None => find p l2 end.
Proof.
  induction l1 as [|x r IH]; [reflexivity|].
  cbn [app find]. destruct (p x); [reflexivity | exact IH].
Qed.

Lemma existsb_key (es : list (jsstring * jsstring)) (k : jsstring) :
  existsb (fun e => str_eqb (fst e) k) es = true <-> In k (map fst es).
Proof.
  rewrite existsb_exists, in_map_iff. split.
  - intros [e [He E]]. apply str_eqb_eq in E. now exists e.
  - intros [e [E He]]. exists e. split; [exact He | now apply str_eqb_eq].
Qed.

Lemma find_key_absent (es : list (jsstring * jsstring)) (k : jsstring) :
  ~ In k (map fst es) -> find (fun e => str_eqb (fst e) k) es = None.
Proof.
  intros Hn. destruct (find _ es) as [e|] eqn:E; [|reflexivity].
  apply find_some in E. destruct E as [He E]. apply str_eqb_eq in E.
  exfalso. apply Hn. apply in_map_iff. now exists e.
Qed.

Lemma entries_set_keys (es : list (jsstring * jsstring)) (k v : jsstring) :
  map fst (entries_set es k v)
  = if existsb (fun e => str_eqb (fst e) k) es then map fst es
    else map fst es ++ [k].
Proof.
  unfold entries_set. destruct (existsb _ es).
  - rewrite map_map. apply map_ext. intros e.
    now destruct (str_eqb (fst e) k).
  - now rewrite map_app.
Qed.

(** What was written under a key is what is read under it. *)
Lemma entries_get_set_same (es : list (jsstring * jsstring)) (k v : jsstring) :
  option_map snd (find (fun e => str_eqb (fst e) k) (entries_set es k v))
  = Some v.
Proof.
  unfold entries_set. destruct (existsb _ es) eqn:E.
  - induction es as [|e r IH]; [discriminate|].
    cbn [existsb] in E. cbn [map find].
    destruct (str_eqb (fst e) k) eqn:Ek; cbn [fst].
    + now rewrite Ek.
    + rewrite Ek. cbn [orb] in E. now apply IH.
  - rewrite find_app, find_key_absent.
    + cbn [find fst]. now rewrite str_eqb_refl.
    + intros H. apply existsb_key in H. congruence.
Qed.

(** A write under one key leaves what is read under another. *)
Lemma entries_get_set_other
      (es : list (jsstring * jsstring)) (k k' v : jsstring) :
  k' <> k ->
  option_map snd (find (fun e => str_eqb (fst e) k') (entries_set es k v))
  = option_map snd (find (fun e => str_eqb (fst e) k') es).
Proof.
  intros Hne. unfold entries_set. destruct (existsb _ es).
  - induction es as [|e r IH]; [reflexivity|]. cbn [map find].
    destruct (str_eqb (fst e) k) eqn:Ek; cbn [fst].
    + apply str_eqb_eq in Ek. rewrite Ek.
      assert (En : str_eqb k k' = false) by (apply str_eqb_neq; congruence).
      now rewrite En.
    + destruct (str_eqb (fst e) k'); [reflexivity | exact IH].
  - rewrite find_app. destruct (find _ es); [reflexivity|].
    cbn [find fst].
    assert (En : str_eqb k k' = false) by (apply str_eqb_neq; congruence).
    now rewrite En.
Qed.

Section PersistedState.
Context {J : Json}.

(** X12: the initial value of a persisted state is the default whenever
    the storage cannot be read, holds nothing under the key, holds the
    empty text or holds a text that does not parse; a text that parses
    gives the parsed value, of whatever shape. *)
Theorem usePersistentState_initial_cases
        (storage : Storage) (k : jsstring) (initial : JSON) :
  (storage = StorageBlocked ->
   usePersistentState_initial storage k initial = initial)
  /\ (~ In k (storage_keys storage) ->
      usePersistentState_initial storage k initial = initial)
  /\ (getItem storage k = Some (Some []) ->
      usePersistentState_initial storage k initial = initial)
  /\ (forall r, getItem storage k = Some (Some r) -> JSON_parse r = None ->
                usePersistentState_initial storage k initial = initial)
  /\ (forall r v, getItem storage k = Some (Some r) -> r <> [] ->
                  JSON_parse r = Some v ->
                  usePersistentState_initial storage k initial = v).
Proof.
  unfold usePersistentState_initial.
  split; [|split; [|split; [|split]]].
  - now intros ->.
  - destruct storage as [|acc es]; [reflexivity|]. cbn [storage_keys getItem].
    intros Hn. now rewrite find_key_absent.
  - now intros ->.
  - intros r -> ->. now destruct (truthy r).
  - intros r v -> Hne ->. apply truthy_nonempty in Hne. now rewrite Hne.
Qed.

(** X13: what the effect writes is what the next mount reads: when the
    store takes the write and the text of the value is not empty and
    parses back to the value, the initial value under the same key is that
    value, whatever the default and whatever was stored before. *)
Theorem usePersistentState_round_trip
        (accepts : jsstring -> jsstring -> bool)
        (es : list (jsstring * jsstring)) (k : jsstring)
        (value initial : JSON) :
  accepts k (JSON_stringify value) = true ->
  JSON_stringify value <> [] ->
  JSON_parse (JSON_stringify value) = Some value ->
  usePersistentState_initial
    (usePersistentState_effect (StorageOpen accepts es) k value) k initial
  = value.
Proof.
  intros Ha Hne Hp.
  unfold usePersistentState_effect, usePersistentState_initial.
  cbn [setItem]. rewrite Ha. cbn [getItem].
  rewrite entries_get_set_same. apply truthy_nonempty in Hne.
  now rewrite Hne, Hp.
Qed.

(** X14: the effect of one persisted state never changes what another
    one, under a different key, reads at its next mount. *)
Theorem usePersistentState_keys_independent
        (storage : Storage) (k k' : jsstring) (value initial : JSON) :
  k' <> k ->
  usePersistentState_initial (usePersistentState_effect storage k value)
                             k' initial
  = usePersistentState_initial storage k' initial.
Proof.
  intros Hne. unfold usePersistentState_effect.
  destruct storage as [|acc es]; [reflexivity|]. cbn [setItem].
  destruct (acc k (JSON_stringify value)); [|reflexivity].
  unfold usePersistentState_initial. cbn [getItem].
  now rewrite entries_get_set_other.
Qed.

(** X15: the effect keeps the keys of the store distinct, removes none,
    adds at most the key it writes, and leaves the store untouched when
    the storage is blocked or refuses the write. *)
Theorem usePersistentState_effect_keeps_store
        (storage : Storage) (k : jsstring) (value : JSON) :
  (NoDup (storage_keys storage) ->
   NoDup (storage_keys (usePersistentState_effect storage k value)))
  /\ (forall k', In k' (storage_keys storage) ->
                 In k' (storage_keys
                          (usePersistentState_effect storage k value)))
  /\ (forall k', In k' (storage_keys
                          (usePersistentState_effect storage k value)) ->
                 In k' (storage_keys storage) \/ k' = k)
  /\ (setItem storage k (JSON_stringify value) = None ->
      usePersistentState_effect storage k value = storage).
Proof.
  unfold usePersistentState_effect.
  destruct storage as [|acc es]; cbn [setItem].
  - repeat split; auto.
  - destruct (acc k (JSON_stringify value)); [|repeat split; auto].
    cbn [storage_keys]. rewrite entries_set_keys.
    destruct (existsb _ es) eqn:E.
    + repeat split; auto. discriminate.
    + assert (Hn : ~ In k (map fst es)).
      { intros H. apply existsb_key in H. congruence. }
      split; [|split; [|split]].
      * intros Hnd. apply NoDup_app; [exact Hnd | repeat constructor; auto |].
        intros x Hx [<-|[]]. contradiction.
      * intros k' H. apply in_app_iff. now left.
      * intros k' H. apply in_app_iff in H. destruct H as [H|[<-|[]]]; auto.
      * discriminate.
Qed.
End PersistedState.

Lemma usePersistentState_initial_cases_witness :
  @usePersistentState_initial RefJson.json
    (StorageOpen (fun _ _ => true) [(JS "appsHub:sort", JS "oops")])
    (JS "appsHub:sort") (JString (JS "name"))
  = JString (JS "name")
  /\ @usePersistentState_initial RefJson.json
       (StorageOpen (fun _ _ => true) [(JS "appsHub:sort", JS "null")])
       (JS "appsHub:sort") (JString (JS "name"))
     = JNull.
Proof.
  destruct (@usePersistentState_initial_cases RefJson.json
              (StorageOpen (fun _ _ => true) [(JS "appsHub:sort", JS "oops")])
              (JS "appsHub:sort") (JString (JS "name")))
    as [_ [_ [_ [Hbad _]]]].
  destruct (@usePersistentState_initial_cases RefJson.json
              (StorageOpen (fun _ _ => true) [(JS "appsHub:sort", JS "null")])
              (JS "appsHub:sort") (JString (JS "name")))
    as [_ [_ [_ [_ Hgood]]]].
  split.
  - apply (Hbad (JS "oops")); reflexivity.
  - apply (Hgood (JS "null")); [reflexivity | discriminate | reflexivity].
Defined.

Lemma usePersistentState_round_trip_witness :
  @usePersistentState_initial RefJson.json
    (@usePersistentState_effect RefJson.json
       (StorageOpen (fun _ _ => true) [(JS "appsHub:sort", JS "oops")])
       (JS "appsHub:sort") (JString (JS "category")))
    (JS "appsHub:sort") (JString (JS "name"))
  = JString (JS "category").
Proof.
  apply (@usePersistentState_round_trip RefJson.json);
    [reflexivity | discriminate | reflexivity].
Defined.

Lemma usePersistentState_keys_independent_witness :
  @usePersistentState_initial RefJson.json
    (@usePersistentState_effect RefJson.json
       (StorageOpen (fun _ _ => true) []) (JS "appsHub:sort")
       (JString (JS "category")))
    (JS "appsHub:view") (JString (JS "grouped"))
  = JString (JS "grouped").
Proof.
  rewrite (@usePersistentState_keys_independent RefJson.json);
    [reflexivity | discriminate].
Defined.

Lemma usePersistentState_effect_keeps_store_witness :
  NoDup (storage_keys
           (@usePersistentState_effect RefJson.json
              (StorageOpen (fun _ _ => true) [(JS "appsHub:sort", JS "oops")])
              (JS "appsHub:view") (JString (JS "flat"))))
  /\ @usePersistentState_effect RefJson.json StorageBlocked
       (JS "appsHub:view") (JString (JS "flat"))
     = StorageBlocked.
Proof.
  destruct (@usePersistentState_effect_keeps_store RefJson.json
              (StorageOpen (fun _ _ => true) [(JS "appsHub:sort", JS "oops")])
              (JS "appsHub:view") (JString (JS "flat"))) as [Hnd _].
  destruct (@usePersistentState_effect_keeps_store RefJson.json
              StorageBlocked (JS "appsHub:view") (JString (JS "flat")))
    as [_ [_ [_ Hb]]].
  split.
  - apply Hnd. repeat constructor. intros [].
  - apply Hb. reflexivity.
Defined.

(** ** Cards, grids and the page *)

Lemma unit_of_ascii_inj (a b : Ascii.ascii) :
  unit_of_ascii a = unit_of_ascii b -> a = b.
Proof.
  unfold unit_of_ascii. intros H. apply N2Z.inj in H.
  rewrite <- (Ascii.ascii_N_embedding a), <- (Ascii.ascii_N_embedding b).
  now rewrite H.
Qed.

Lemma units_of_string_inj (s t : String.string) :
  map unit_of_ascii (String.list_ascii_of_string s)
  = map unit_of_ascii (String.list_ascii_of_string t) ->
  s = t.
Proof.
  revert t. induction s as [|a s IH]; intros [|b t]; cbn; intros H;
    try reflexivity; try discriminate.
  injection H as Ha Hr. apply unit_of_ascii_inj in Ha. subst.
  f_equal. now apply IH.
Qed.

Lemma uint_digits (d : Decimal.uint) :
  Forall (fun c => 48 <= c <= 57)
         (map unit_of_ascii
              (String.list_ascii_of_string
                 (DecimalString.NilEmpty.string_of_uint d))).
Proof.
  induction d; cbn [DecimalString.NilEmpty.string_of_uint
                      String.list_ascii_of_string map];
    constructor; try exact IHd; vm_compute; split; discriminate.
Qed.

Lemma to_int_of_nat (i : nat) :
  exists d, Z.to_int (Z.of_nat i) = Decimal.Pos d /\ d <> Decimal.Nil.
Proof.
  destruct (Z.of_nat i) as [|p|p] eqn:E.
  - exists Decimal.zero. split; [reflexivity | discriminate].
  - exists (Pos.to_uint p). split; [reflexivity|].
    apply DecimalPos.Unsigned.to_uint_nonnil.
  - lia.
Qed.

(** The decimal form of an index holds digits only. *)
Lemma decimal_of_nat_digits (i : nat) :
  Forall (fun c => 48 <= c <= 57) (decimal (Z.of_nat i)).
Proof.
  unfold decimal. destruct (to_int_of_nat i) as [d [-> Hd]].
  cbn [DecimalString.NilZero.string_of_int].
  replace (DecimalString.NilZero.string_of_uint d)
    with (DecimalString.NilEmpty.string_of_uint d)
    by (destruct d; [congruence | reflexivity ..]).
  apply uint_digits.
Qed.

Lemma decimal_inj (a b : Z) : decimal a = decimal b -> a = b.
Proof.
  unfold decimal. intros H. apply units_of_string_inj in H.
  apply DecimalZ.to_int_inj.
  assert (N : forall z, Z.to_int z <> Decimal.Pos Decimal.Nil
                        /\ Z.to_int z <> Decimal.Neg Decimal.Nil).
  { intros [|p|p]; cbn; split; try discriminate;
      intros E; injection E as E;
      exact (DecimalPos.Unsigned.to_uint_nonnil p E). }
  destruct (N a) as [Ha1 Ha2]. destruct (N b) as [Hb1 Hb2].
  pose proof (DecimalString.NilZero.isi _ Ha1 Ha2) as Ia.
  pose proof (DecimalString.NilZero.isi _ Hb1 Hb2) as Ib.
  rewrite H in Ia. congruence.
Qed.

Lemma decimal_of_nat_no_hyphen (i : nat) : ~ In 45 (decimal (Z.of_nat i)).
Proof.
  intros H. pose proof (decimal_of_nat_digits i) as F.
  rewrite Forall_forall in F. specialize (F 45 H). lia.
Qed.

(** Two strings that end in a hyphen and a hyphen-free tail are equal only
    when the tails are. *)
Lemma hyphen_tail_inj (u u' d d' : jsstring) :
  ~ In 45 d -> ~ In 45 d' -> u ++ 45 :: d = u' ++ 45 :: d' -> d = d'.
Proof.
  intros Hd Hd'. revert u'. induction u as [|c r IH]; intros [|c' r'] H;
    cbn [app] in H.
  - now injection H.
  - injection H as _ H. exfalso. apply Hd. rewrite H.
    apply in_app_iff. right. now left.
  - injection H as _ H. exfalso. apply Hd'. rewrite <- H.
    apply in_app_iff. right. now left.
  - injection H as _ H. now apply (IH r').
Qed.

Section Keys.
Context {A B : Type} (pre : A -> jsstring) (g : A -> B).

Lemma keyed_children_form (i : nat) (l : list A) (x : jsstring) :
  In x (map fst (map_index_from (keyed_child pre g) i l)) ->
  exists b j, (i <= j)%nat /\ x = pre b ++ 45 :: decimal (Z.of_nat j).
Proof.
  revert i. induction l as [|a r IH]; intros i H; [destruct H|].
  cbn [map_index_from map] in H. destruct H as [<-|H].
  - exists a, i. split; [lia | reflexivity].
  - destruct (IH (S i) H) as [b [j [Hj E]]]. exists b, j. split; [lia|exact E].
Qed.

Lemma keyed_children_NoDup (i : nat) (l : list A) :
  NoDup (map fst (map_index_from (keyed_child pre g) i l)).
Proof.
  revert i. induction l as [|a r IH]; intros i; cbn [map_index_from map];
    constructor; [|apply IH].
  intros H. destruct (keyed_children_form _ _ _ H) as [b [j [Hj E]]].
  cbn [keyed_child fst] in E. change (JS "-") with [45] in E. cbn [app] in E.
  apply hyphen_tail_inj in E; try apply decimal_of_nat_no_hyphen.
  apply decimal_inj in E. lia.
Qed.

Lemma keyed_children_snd (i : nat) (l : list A) :
  map snd (map_index_from (keyed_child pre g) i l) = map g l.
Proof.
  revert i. induction l as [|a r IH]; intros i; cbn [map_index_from map];
    [reflexivity | now rewrite IH].
Qed.

Lemma keyed_children_length (i : nat) (l : list A) :
  length (map_index_from (keyed_child pre g) i l) = length l.
Proof.
  revert i. induction l as [|a r IH]; intros i; cbn [map_index_from length];
    [reflexivity | now rewrite IH].
Qed.
End Keys.

Lemma map_index_from_ext {A B : Type} (f f' : A -> nat -> B) (i : nat)
      (l : list A) :
  (forall a j, f a j = f' a j) ->
  map_index_from f i l = map_index_from f' i l.
Proof.
  intros H. revert i. induction l as [|a r IH]; intros i;
    cbn [map_index_from]; [reflexivity | now rewrite H, IH].
Qed.

Lemma length_flat_map_sum {A B : Type} (f : A -> list B) (l : list A) :
  length (flat_map f l) = list_sum (map (fun x => length (f x)) l).
Proof.
  induction l as [|x r IH]; [reflexivity|].
  cbn [flat_map map list_sum]. now rewrite length_app, IH.
Qed.

Section RenderingFacts.
Context {RT : Runtime}.

(** X16: the badge of a card names the partition the record is grouped
    under, except for a record whose category is the empty string: its
    badge is the "uncategorized" sentinel while its partition key is the
    empty string. *)
Theorem AppCard_badge_and_partition (a : AppItem) :
  (category a <> Some [] -> card_badge (AppCard a) = categoryKey a)
  /\ (category a = Some [] ->
      card_badge (AppCard a) = UNCATEGORIZED
      /\ categoryKey a = []
      /\ card_badge (AppCard a) <> categoryKey a).
Proof.
  unfold AppCard, categoryKey. cbn [card_badge]. split.
  - destruct (category a) as [[|c s]|]; intros H;
      [now destruct H | reflexivity ..].
  - intros ->. cbn. repeat split. discriminate.
Qed.

Lemma FlatGrid_keyed (l : list AppItem) :
  FlatGrid l = map_index_from (keyed_child url AppCard) 0 l.
Proof. reflexivity. Qed.

(** X17: the cards of the flat grid carry pairwise different React keys,
    also when records share a URL, and they are the cards of the records,
    one for one and in order. *)
Theorem FlatGrid_keys_distinct (l : list AppItem) :
  NoDup (map fst (FlatGrid l))
  /\ map snd (FlatGrid l) = map AppCard l.
Proof.
  rewrite FlatGrid_keyed. split.
  - apply keyed_children_NoDup.
  - apply keyed_children_snd.
Qed.

Lemma GroupedGrid_keyed (groups : list Group) :
  GroupedGrid groups
  = map (fun g =>
           mkGridSection (key g) (key g) (length (items g))
             (map_index_from
                (keyed_child (fun a => key g ++ JS "-" ++ url a) AppCard)
                0 (items g)))
        groups.
Proof.
  unfold GroupedGrid, map_index. apply map_ext. intros g. f_equal.
  apply map_index_from_ext. intros a j. unfold keyed_child.
  now rewrite <- !app_assoc.
Qed.

Lemma GroupedGrid_cards (groups : list Group) :
  section_cards_all (GroupedGrid groups) = map AppCard (flatten groups).
Proof.
  rewrite GroupedGrid_keyed. unfold section_cards_all, flatten.
  induction groups as [|g r IH]; [reflexivity|].
  cbn [map flat_map section_cards]. rewrite map_app, IH.
  now rewrite keyed_children_snd.
Qed.

(** X18: in the grouped grid built from Grouped the sections carry
    pairwise different React keys; each section shows as its count the
    number of its cards, which is at least one, and its cards carry
    pairwise different keys; the counts add up to the number of grouped
    records. *)
Theorem GroupedGrid_sections (l : list AppItem) :
  NoDup (map section_key (GroupedGrid (grouped l)))
  /\ Forall (fun s => section_count s = length (section_cards s)
                      /\ (1 <= section_count s)%nat
                      /\ NoDup (map fst (section_cards s)))
            (GroupedGrid (grouped l))
  /\ list_sum (map section_count (GroupedGrid (grouped l))) = length l.
Proof.
  destruct (grouped_partition l) as [Hp [Hn [Hi _]]].
  rewrite GroupedGrid_keyed. split; [|split].
  - rewrite map_map. cbn [section_key]. exact Hn.
  - apply Forall_forall. intros s Hs. apply in_map_iff in Hs.
    destruct Hs as [g [<- Hg]]. cbn [section_count section_cards].
    split; [now rewrite keyed_children_length|].
    split; [|apply keyed_children_NoDup].
    destruct (Hi g Hg) as [_ Hne]. destruct (items g); [congruence|].
    cbn [length]. lia.
  - rewrite map_map. cbn [section_count].
    rewrite <- (Permutation_length Hp). unfold flatten.
    now rewrite length_flat_map_sum.
Qed.

Lemma App_body_cards (catalog : list AppItem) (loadError_ : option jsstring)
      (query : jsstring) (sort : SortMode) (view : ViewMode) (cf : jsstring) :
  Permutation
    (body_cards (page_body (App (Some catalog) loadError_ query sort view cf)))
    (map AppCard (filtered (Some catalog) query cf)).
Proof.
  unfold App. cbn [page_body].
  pose proof (normalized_perm_filtered (Some catalog) query cf sort) as P.
  destruct (normalized (Some catalog) query sort cf) as [|a r] eqn:E.
  - cbn [length Nat.eqb body_cards]. apply Permutation_nil in P.
    rewrite P. constructor.
  - cbn [length Nat.eqb]. apply Permutation_trans with (map AppCard (a :: r));
      [|now apply Permutation_map].
    destruct view; cbn [body_cards].
    + rewrite GroupedGrid_cards. apply Permutation_map.
      now destruct (grouped_partition (a :: r)) as [Hp _].
    + rewrite FlatGrid_keyed, keyed_children_snd. reflexivity.
Qed.

(** X19: once a catalog is set, in either view and either sort mode the
    page shows exactly one card for each record that passes the filters
    and no other card; with an empty query and the category filter that
    lets everything through, one card for each record of the catalog. *)
Theorem App_shows_filtered_records
        (catalog : list AppItem) (loadError_ : option jsstring)
        (query : jsstring) (sort : SortMode) (view : ViewMode)
        (cf : jsstring) :
  Permutation
    (body_cards (page_body (App (Some catalog) loadError_ query sort view cf)))
    (map AppCard (filtered (Some catalog) query cf))
  /\ (toLowerCase [] = [] -> trim query = [] -> cf = ALL ->
      Permutation
        (body_cards
           (page_body (App (Some catalog) loadError_ query sort view cf)))
        (map AppCard catalog)).
Proof.
  split; [apply App_body_cards|].
  intros Hl Hq ->. rewrite <- (filtered_everything catalog query Hl Hq) at 2.
  apply App_body_cards.
Qed.

(** X20: the page shows the loading placeholder exactly as long as no
    catalog is set, and the "nothing matches" message exactly when a
    catalog is set and no record passes the filters. *)
Theorem App_placeholders
        (apps_ : option (list AppItem)) (loadError_ : option jsstring)
        (query : jsstring) (sort : SortMode) (view : ViewMode)
        (cf : jsstring) :
  (page_body (App apps_ loadError_ query sort view cf) = BodyLoading
   <-> apps_ = None)
  /\ (page_body (App apps_ loadError_ query sort view cf) = BodyNoMatch
      <-> apps_ <> None /\ filtered apps_ query cf = []).
Proof.
  unfold App. cbn [page_body].
  pose proof (normalized_perm_filtered apps_ query cf sort) as P.
  destruct apps_ as [catalog|].
  - destruct (normalized (Some catalog) query sort cf) as [|a r] eqn:E;
      cbn [length Nat.eqb].
    + apply Permutation_nil in P. split; split; try discriminate.
      * intros _. split; [discriminate | exact P].
      * reflexivity.
    + split; split; try (destruct view; discriminate).
      intros [_ F]. rewrite F in P. apply Permutation_sym in P.
      apply Permutation_nil in P. discriminate.
  - split; split; try reflexivity; try discriminate.
    intros [H _]. now destruct H.
Qed.
End RenderingFacts.

Lemma AppCard_badge_and_partition_witness :
  card_badge (@AppCard Ref.runtime
                (mkAppItem (JS "T") (JS "https://t.huny.dev") None
                           (Some []) None))
  = UNCATEGORIZED
  /\ card_badge (@AppCard Ref.runtime
                   (mkAppItem (JS "T") (JS "https://t.huny.dev") None
                              (Some (JS "AI")) None))
     = JS "AI".
Proof.
  destruct (@AppCard_badge_and_partition Ref.runtime
              (mkAppItem (JS "T") (JS "https://t.huny.dev") None
                         (Some []) None)) as [_ He].
  destruct (@AppCard_badge_and_partition Ref.runtime
              (mkAppItem (JS "T") (JS "https://t.huny.dev") None
                         (Some (JS "AI")) None)) as [Hn _].
  split.
  - apply He. reflexivity.
  - rewrite Hn; [reflexivity | discriminate].
Defined.

Lemma App_shows_filtered_records_witness :
  Permutation
    (body_cards
       (page_body (@App Ref.runtime (Some FALLBACK_APPS) None (JS " ")
                        SortName ViewGrouped ALL)))
    (map (@AppCard Ref.runtime) FALLBACK_APPS).
Proof.
  destruct (@App_shows_filtered_records Ref.runtime FALLBACK_APPS None
              (JS " ") SortName ViewGrouped ALL) as [_ H].
  apply H; reflexivity.
Defined.

Lemma App_placeholders_witness :
  page_body (@App Ref.runtime (Some FALLBACK_APPS) None (JS "zzz")
                  SortName ViewFlat ALL)
  = BodyNoMatch.
Proof.
  destruct (@App_placeholders Ref.runtime (Some FALLBACK_APPS) None
              (JS "zzz") SortName ViewFlat ALL) as [_ H].
  apply H. split; [discriminate | reflexivity].
Defined.

(** ** The dev tests *)

Section DevTestsPass.
Context {RT : Runtime}.

(** X21: on an engine that gives the three test URLs their hostnames and
    leaves "VC" and "S" as they are when upper-casing, every dev test
    passes: the console gets no error entry and the summary reads
    "6/6 tests passed."; the hue test passes on every engine. *)
Theorem runDevTests_all_pass :
  (URL_hostname (JS "https://studio.huny.dev/x") = Some (JS "studio.huny.dev") ->
   URL_hostname (JS "https://studio.huny.dev") = Some (JS "studio.huny.dev") ->
   URL_hostname (JS "https://huny.dev") = Some (JS "huny.dev") ->
   toUpperCase (JS "VC") = JS "VC" ->
   toUpperCase (JS "S") = JS "S" ->
   Forall (fun e => entry_level e <> ConsoleError) runDevTests
   /\ In (mkConsoleEntry ConsoleLog [JS "6/6 tests passed."]) runDevTests)
  /\ ~ In (mkConsoleEntry ConsoleError [JS "❌"; JS "hashToHsl: hue range"])
          runDevTests.
Proof.
  split.
  - intros H1 H2 H3 H4 H5.
    assert (E : devTests
                = map (fun name => (name, true)) (map fst devTests)).
    { unfold devTests, getSubdomainForSort, getHostname.
      rewrite H1, H2, H3.
      change (initialsFrom (JS "Voice Conversion")) with (toUpperCase (JS "VC")).
      change (initialsFrom (JS "Studio")) with (toUpperCase (JS "S")).
      rewrite H4, H5. reflexivity. }
    unfold runDevTests. rewrite E. clear E.
    split; [repeat constructor; discriminate | vm_compute; tauto].
  - unfold runDevTests.
    destruct (fold_left devTest_step devTests ([], 0%nat)) as [out passed]
      eqn:E.
    assert (G : forall tests acc,
               ~ In (mkConsoleEntry ConsoleError
                       [JS "❌"; JS "hashToHsl: hue range"]) (fst acc) ->
               (forall ok, In (JS "hashToHsl: hue range", ok) tests ->
                           ok = true) ->
               ~ In (mkConsoleEntry ConsoleError
                       [JS "❌"; JS "hashToHsl: hue range"])
                    (fst (fold_left devTest_step tests acc))).
    { induction tests as [|[name ok] r IH]; intros [o p] Ho Ht; [exact Ho|].
      cbn [fold_left]. apply IH.
      - unfold devTest_step. destruct ok; cbn [negb fst].
        + intros H. apply in_app_iff in H. destruct H as [H|[H|[]]];
            [exact (Ho H) | discriminate].
        + intros H. apply in_app_iff in H. destruct H as [H|[H|[]]];
            [exact (Ho H)|].
          injection H as ->. now specialize (Ht false (or_introl eq_refl)).
      - intros ok' H. apply Ht. now right. }
    specialize (G devTests ([], 0%nat)). rewrite E in G. cbn [fst] in G.
    intros H. cbn [app] in H. destruct H as [H|H]; [discriminate|].
    apply in_app_iff in H. destruct H as [H|[H|[H|[]]]]; try discriminate.
    revert H. apply G; [intros [] |].
    intros ok Hin. unfold devTests in Hin. cbn [In] in Hin.
    destruct Hin as [Hin|[Hin|[Hin|[Hin|[Hin|[Hin|[]]]]]]];
      try discriminate.
    injection Hin as <-. reflexivity.
Qed.
End DevTestsPass.

Lemma runDevTests_all_pass_witness :
  In (mkConsoleEntry ConsoleLog [JS "6/6 tests passed."])
     (@runDevTests Ref.runtime).
Proof.
  destruct (@runDevTests_all_pass Ref.runtime) as [H _].
  apply H; reflexivity.
Defined.

(** ** The placeholder colour *)

(** X22: the background of a placeholder is always the text
    "hsl(H 65% 50%)" with H the decimal form of an integer from 0 to 359,
    the hue of the seed. *)
Theorem PlaceholderThumb_background (seed label : jsstring) :
  exists hue,
    0 <= hue < 360
    /\ hue = hash32 seed mod 360
    /\ PlaceholderThumb seed label
       = ThumbPlaceholder (JS "hsl(" ++ decimal hue ++ JS " 65% 50%)") label.
Proof.
  exists (hash32 seed mod 360).
  split; [apply Z.mod_pos_bound; lia | split; [reflexivity|]].
  unfold PlaceholderThumb. rewrite hashToHsl_hash32. cbn [hsl_h hsl_s hsl_l].
  reflexivity.
Qed.
